(** * Replacement-character scan (__scan.py)

    A shallow embedding of the ten-line script

<<
    from pathlib import Path
    root = Path('.')
    for path in root.rglob('*'):
        if path.is_file() and path.suffix not in {'.png', ..., '.ttf'}:
            try:
                text = path.read_text(encoding='utf-8')
            except Exception:
                continue
            if '\uFFFD' in text:
                print(f"{path}")
>>

    The script is I/O plumbing over three library services: pathlib
    ([rglob], [is_file], [suffix], [read_text]), the strict UTF-8 codec and
    [print].  The file system is an explicit tree with the permissions that
    decide which calls fail; the script is a computation in a
    state-and-exception monad whose state is the log of the I/O operations
    performed.  The library services are modelled after CPython 3.11
    ([pathlib.py], the codec of [stringlib/codecs.h]), with the exceptions
    they raise: only [read_text] is called inside the [try] of the script,
    so what [is_file], [print] or the enumeration raise ends the run. *)

From Stdlib Require Import List Bool Arith ZArith NArith Lia.
From Stdlib Require Import Ascii String.
From Stdlib.Strings Require Import Byte.
From Stdlib Require Import Permutation.
Import ListNotations.

(* ------------------------------------------------------------------ *)
(** ** Text: Python [str] as a sequence of code points *)

Module Text.

Definition codepoint := N.
Definition text := list codepoint.

(** U+FFFD REPLACEMENT CHARACTER, the literal ['\uFFFD'] of the script. *)
Definition REPLACEMENT : codepoint := 0xFFFD%N.

Definition CR : codepoint := 13%N.
Definition LF : codepoint := 10%N.

(** [c in text] for a one-character string [c]. *)
Definition contains (c : codepoint) (t : text) : bool :=
  existsb (N.eqb c) t.

(** Universal-newline translation done by a text-mode file object opened
    with [newline=None], as [read_text] does: CR LF and a lone CR both
    become LF. *)
Fixpoint translate_newlines (t : text) : text :=
  match t with
  | [] => []
  | c :: t' =>
      if N.eqb c CR then
        match t' with
        | c' :: t'' =>
            if N.eqb c' LF then LF :: translate_newlines t''
            else LF :: translate_newlines t'
        | [] => [LF]
        end
      else c :: translate_newlines t'
  end.

End Text.

(* ------------------------------------------------------------------ *)
(** ** The strict UTF-8 decoder *)

Module Utf8.
Import Text.
Local Open Scope N_scope.

Definition val (b : byte) : N := Byte.to_N b.

(** A continuation byte is [10xxxxxx]. *)
Definition is_cont (b : byte) : bool :=
  (0x80 <=? val b) && (val b <=? 0xBF).

Definition in_range (lo hi : N) (b : byte) : bool :=
  (lo <=? val b) && (val b <=? hi).

Definition low6 (b : byte) : N := N.land (val b) 0x3F.

Definition cp2 (b0 b1 : byte) : codepoint :=
  N.lor (N.shiftl (N.land (val b0) 0x1F) 6) (low6 b1).

Definition cp3 (b0 b1 b2 : byte) : codepoint :=
  N.lor (N.shiftl (N.land (val b0) 0x0F) 12)
        (N.lor (N.shiftl (low6 b1) 6) (low6 b2)).

Definition cp4 (b0 b1 b2 b3 : byte) : codepoint :=
  N.lor (N.shiftl (N.land (val b0) 0x07) 18)
        (N.lor (N.shiftl (low6 b1) 12)
               (N.lor (N.shiftl (low6 b2) 6) (low6 b3))).

(** The range allowed for the second byte of a sequence, which is where
    the decoder refuses overlong forms (E0 80..9F, F0 80..8F), surrogates
    (ED A0..BF) and code points above U+10FFFF (F4 90..BF). *)
Definition second_ok (b0 b1 : byte) : bool :=
  if val b0 =? 0xE0 then in_range 0xA0 0xBF b1
  else if val b0 =? 0xED then in_range 0x80 0x9F b1
  else if val b0 =? 0xF0 then in_range 0x90 0xBF b1
  else if val b0 =? 0xF4 then in_range 0x80 0x8F b1
  else is_cont b1.

(** [bytes.decode('utf-8', errors='strict')]: [None] stands for
    [UnicodeDecodeError].  Start bytes 80..C1 and F5..FF are invalid, and
    so is a sequence cut short by the end of the input. *)
Fixpoint decode (bs : list byte) : option text :=
  match bs with
  | [] => Some []
  | b0 :: r0 =>
      if val b0 <? 0x80 then
        option_map (cons (val b0)) (decode r0)
      else if val b0 <? 0xC2 then None
      else if val b0 <? 0xE0 then
        match r0 with
        | b1 :: r1 =>
            if is_cont b1 then option_map (cons (cp2 b0 b1)) (decode r1)
            else None
        | _ => None
        end
      else if val b0 <? 0xF0 then
        match r0 with
        | b1 :: b2 :: r2 =>
            if second_ok b0 b1 && is_cont b2
            then option_map (cons (cp3 b0 b1 b2)) (decode r2)
            else None
        | _ => None
        end
      else if val b0 <? 0xF5 then
        match r0 with
        | b1 :: b2 :: b3 :: r3 =>
            if second_ok b0 b1 && is_cont b2 && is_cont b3
            then option_map (cons (cp4 b0 b1 b2 b3)) (decode r3)
            else None
        | _ => None
        end
      else None
  end.

(** Bytes of an ASCII string literal. *)
Definition bytes_of_string (s : string) : list byte := list_byte_of_string s.

(** The decoder read as a relation, one rule for each sequence length;
    [DecodeFacts.decode_Decodes] shows [decode] computes it. *)
Inductive Decodes : list byte -> text -> Prop :=
| Decodes_nil : Decodes [] []
| Decodes_1 (b0 : byte) (r : list byte) (t : text) :
    val b0 < 0x80 ->
    Decodes r t ->
    Decodes (b0 :: r) (val b0 :: t)
| Decodes_2 (b0 b1 : byte) (r : list byte) (t : text) :
    0xC2 <= val b0 < 0xE0 ->
    is_cont b1 = true ->
    Decodes r t ->
    Decodes (b0 :: b1 :: r) (cp2 b0 b1 :: t)
| Decodes_3 (b0 b1 b2 : byte) (r : list byte) (t : text) :
    0xE0 <= val b0 < 0xF0 ->
    second_ok b0 b1 = true ->
    is_cont b2 = true ->
    Decodes r t ->
    Decodes (b0 :: b1 :: b2 :: r) (cp3 b0 b1 b2 :: t)
| Decodes_4 (b0 b1 b2 b3 : byte) (r : list byte) (t : text) :
    0xF0 <= val b0 < 0xF5 ->
    second_ok b0 b1 = true ->
    is_cont b2 = true ->
    is_cont b3 = true ->
    Decodes r t ->
    Decodes (b0 :: b1 :: b2 :: b3 :: r) (cp4 b0 b1 b2 b3 :: t).

(** A byte that can occur in well-formed UTF-8: any but C0, C1 and
    F5..FF. *)
Definition possible_byte (b : byte) : Prop :=
  val b <> 0xC0 /\ val b <> 0xC1 /\ val b < 0xF5.

(** A Unicode scalar value: at most U+10FFFF and not a surrogate. *)
Definition scalar_value (c : codepoint) : Prop :=
  c <= 0x10FFFF /\ ~ (0xD800 <= c <= 0xDFFF).

End Utf8.

(* ------------------------------------------------------------------ *)
(** ** Pure paths: [pathlib.PurePath] *)

Module PurePath.
Local Open Scope Z_scope.

(** A path relative to the root [Path('.')] is the list of its parts;
    the root itself has no parts. *)
Definition Path := list string.

(** [parent / name] *)
Definition joinpath (parent : Path) (name : string) : Path :=
  parent ++ [name].

(** [path.name]: the final component, [''] if there is none. *)
Definition name (p : Path) : string := last p EmptyString.

Definition len (s : string) : Z := Z.of_nat (String.length s).

(** [s.rfind(c)]: the highest index of [c] in [s], or [-1]. *)
Fixpoint rfind (c : ascii) (s : string) : Z :=
  match s with
  | EmptyString => -1
  | String a s' =>
      let r := rfind c s' in
      if 0 <=? r then r + 1
      else if Ascii.eqb a c then 0 else -1
  end.

(** [s[i:]] for [0 <= i]. *)
Fixpoint drop (n : nat) (s : string) : string :=
  match n, s with
  | O, _ => s
  | S n', String _ s' => drop n' s'
  | S _, EmptyString => EmptyString
  end.

Definition slice_from (i : Z) (s : string) : string := drop (Z.to_nat i) s.

(** [PurePath.suffix]:
<<
    name = self.name
    i = name.rfind('.')
    if 0 < i < len(name) - 1:
        return name[i:]
    else:
        return ''
>> *)
Definition suffix_of_name (nm : string) : string :=
  let i := rfind "."%char nm in
  if (0 <? i) && (i <? len nm - 1) then slice_from i nm else EmptyString.

Definition suffix (p : Path) : string := suffix_of_name (name p).

(** [str(path)]: the parts joined by the separator; the root is ["."]. *)
Definition str (p : Path) : string :=
  match p with
  | [] => "."%string
  | _ => String.concat "/" p
  end.

End PurePath.

(* ------------------------------------------------------------------ *)
(** ** Errors and exceptions *)

Module Exceptions.

Inductive errno :=
  EPERM | ENOENT | EIO | EBADF | EACCES | ENOTDIR | EISDIR | ELOOP
| ENAMETOOLONG | EMFILE.

(** pathlib's [_ignore_error]: the errors that [is_file] and the walk of
    [rglob] take for "no such entry" ([_IGNORED_ERRNOS]). *)
Definition ignore_error (e : errno) : bool :=
  match e with
  | ENOENT | ENOTDIR | EBADF | ELOOP => true
  | _ => false
  end.

(** The [OSError]s that Python raises as [PermissionError]. *)
Definition is_PermissionError (e : errno) : bool :=
  match e with
  | EPERM | EACCES => true
  | _ => false
  end.

(** The exceptions in play.  All derive from [Exception] but
    [KeyboardInterrupt], which derives from [BaseException] only, so that
    [except Exception] does not catch it. *)
Inductive exn :=
| UnicodeDecodeError
| UnicodeEncodeError
| OSError (e : errno)
| RecursionError
| KeyboardInterrupt.

Definition isinstance_Exception (e : exn) : bool :=
  match e with
  | KeyboardInterrupt => false
  | _ => true
  end.

End Exceptions.

(* ------------------------------------------------------------------ *)
(** ** The file system under the root *)

Module FS.
Import PurePath Exceptions.

(** What opening a file and reading it to the end yields: its bytes, or
    the error the operating system reports (permission denied, the file
    vanished after it was listed, an I/O error). *)
Inductive contents :=
| Bytes (bs : list byte)
| Unreadable (e : errno).

(** What a directory refuses.  [scan_error] is the error with which
    [scandir] fails on it, if it fails: [EACCES] without read permission,
    but also [ENOENT] when it has vanished since it was listed, or [EIO].
    [search_error] is the error with which going through it to one of its
    entries fails: [EACCES] without search permission, [ENAMETOOLONG] when
    the paths below it are longer than the system takes. *)
Record mode := { scan_error : option errno; search_error : option errno }.

Definition rwx : mode := {| scan_error := None; search_error := None |}.

Definition listable (m : mode) : bool :=
  match scan_error m with None => true | Some _ => false end.

Definition searchable (m : mode) : bool :=
  match search_error m with None => true | Some _ => false end.

#[local] Set Warnings "-register-all".

(** A node is what one name in a directory stands for.  A symbolic link
    carries what following it yields: the node it leads to, or the error
    of the attempt ([ENOENT] when it dangles, [ELOOP], [EACCES], ...).
    The tree is the file system as the script sees it, by path: the
    script never writes, so a file with several names is to it one node
    under each name. *)
Inductive node :=
| Regular (c : contents)
| Directory (m : mode) (entries : list (string * node))
| Symlink (target : errno + node)
| Special (c : contents).              (* device, FIFO, socket *)

(** Following symbolic links, as [os.stat] does. *)
Fixpoint resolve (n : node) : errno + node :=
  match n with
  | Symlink (inl e) => inl e
  | Symlink (inr t) => resolve t
  | _ => inr n
  end.

Fixpoint find_entry (nm : string) (es : list (string * node)) : option node :=
  match es with
  | [] => None
  | (nm', n) :: es' => if String.eqb nm nm' then Some n else find_entry nm es'
  end.

(** The node a path names, links in intermediate components followed.
    Going through a directory fails with its [search_error]. *)
Fixpoint walk (n : node) (p : Path) : errno + node :=
  match p with
  | [] => inr n
  | nm :: p' =>
      match resolve n with
      | inl e => inl e
      | inr (Directory m es) =>
          match search_error m with
          | None =>
              match find_entry nm es with
              | Some c => walk c p'
              | None => inl ENOENT
              end
          | Some e => inl e
          end
      | inr _ => inl ENOTDIR
      end
  end.

(** [os.stat(path)]: the node behind the path once every link is
    followed, or the error number of the [OSError] it raises. *)
Definition stat (root : node) (p : Path) : errno + node :=
  match walk root p with
  | inr n => resolve n
  | inl e => inl e
  end.

(** *** [rglob]

    [Path.rglob('*')] is the selector for ['**'] followed by the selector
    for ['*'] ([pathlib.py], [_RecursiveWildcardSelector] and
    [_WildcardSelector]).  The first walks the directories; at each one the
    second lists the entries.  Both swallow the [PermissionError] of
    [scandir]; anything else they let through to the [for] statement of
    the script. *)

(** What the walk does with one entry of a listed directory. *)
Inductive step :=
| Descend
| Skip
| Stop
| Abort (e : exn).

(** [entry.is_dir()] failing with an [OSError]: [FileNotFoundError] and
    the other ignored errors make it [False], [PermissionError] ends the
    walk of this directory, any other is raised. *)
Definition is_dir_error (e : errno) : step :=
  if ignore_error e then Skip
  else if is_PermissionError e then Stop
  else Abort (OSError e).

(** [entry.is_dir()] needs no system call unless the entry is a link,
    which it then follows, going through the directory that holds the
    entry ([here] is the [search_error] of that directory).  A link is
    never descended into. *)
Definition classify (here : option errno) (c : node) : step :=
  match c with
  | Directory _ _ => Descend
  | Symlink _ =>
      match here with
      | Some e => is_dir_error e
      | None =>
          match resolve c with
          | inr _ => Skip
          | inl e => is_dir_error e
          end
      end
  | _ => Skip
  end.

(** The loop of [_iterate_directories] over the entries of one directory,
    given how to walk a subdirectory. *)
Fixpoint iterate_entries
         (descend : string -> node -> list (Path * list (string * node)) * option exn)
         (here : option errno)
         (l : list (string * node))
  : list (Path * list (string * node)) * option exn :=
  match l with
  | [] => ([], None)
  | e :: l' =>
      match classify here (snd e) with
      | Skip => iterate_entries descend here l'
      | Stop => ([], None)
      | Abort x => ([], Some x)
      | Descend =>
          match descend (fst e) (snd e) with
          | (ds, Some x) => (ds, Some x)
          | (ds, None) =>
              let (ds', r) := iterate_entries descend here l' in
              ((ds ++ ds')%list, r)
          end
      end
  end.

(** The error of [scandir] on a directory: that of getting to it
    ([above], the [search_error] of a directory over it), else its own. *)
Definition scandir_error (above : option errno) (m : mode) : option errno :=
  match above with
  | Some e => Some e
  | None => scan_error m
  end.

(** [_iterate_directories]: the directories walked, in order, each with
    what the ['*'] selector lists there, and the exception that ends the
    walk, if any.

    - A directory is first handed to the ['*'] selector, which calls
      [scandir] on it: a [PermissionError] is swallowed and nothing is
      listed, any other [OSError] is raised.  The walk then calls
      [scandir] itself, with the same outcome, and goes through the
      entries.
    - [limit] counts how many more levels the interpreter can nest the
      generators of the walk.  At the last level the directory is still
      handed to the ['*'] selector, and the walk raises [RecursionError]
      when it goes on. *)
Fixpoint iterate_directories (limit : nat) (above : option errno) (parent : Path)
         (n : node) {struct n}
  : list (Path * list (string * node)) * option exn :=
  match n with
  | Directory m es =>
      match scandir_error above m with
      | Some e =>
          if is_PermissionError e
          then ([(parent, [])],
                match limit with O => Some RecursionError | S _ => None end)
          else ([], Some (OSError e))
      | None =>
          match limit with
          | O => ([(parent, es)], Some RecursionError)
          | S limit' =>
              let (ds, r) :=
                iterate_entries
                  (fun nm c =>
                     iterate_directories limit' (search_error m)
                                         (joinpath parent nm) c)
                  (search_error m) es in
              ((parent, es) :: ds, r)
          end
      end
  | _ => ([], None)
  end.

(** The pattern ['*'] applied to one listing: every entry matches. *)
Definition select_all (d : Path * list (string * node)) : list Path :=
  map (fun e => joinpath (fst d) (fst e)) (snd d).

(** [root.rglob('*')]: the paths yielded, in order, and the exception that
    ends the enumeration, if any.  A root that is not a directory yields
    nothing ([select_from]).  The names in a directory being distinct, no
    path comes twice, and the set [yielded] by which the selector drops a
    repeated path never drops one. *)
Definition rglob (limit : nat) (root : node) : list Path * option exn :=
  match root with
  | Directory _ _ =>
      let (ds, r) := iterate_directories limit None [] root in
      (flat_map select_all ds, r)
  | _ => ([], None)
  end.

(** *** Vocabulary for statements about the tree *)

(** [real_directory root q es]: the parts [q] lead from the root through
    directories that are directories themselves, none reached through a
    link, each of which [scandir] lists and lets a path through, down to
    one that [scandir] lists and whose listing is [es]. *)
Inductive real_directory : node -> Path -> list (string * node) -> Prop :=
| real_here (m : mode) (es : list (string * node)) :
    listable m = true ->
    real_directory (Directory m es) [] es
| real_below (m m1 : mode) (es es1 es' : list (string * node))
             (nm : string) (q : Path) :
    listable m = true ->
    searchable m = true ->
    In (nm, Directory m1 es1) es ->
    real_directory (Directory m1 es1) q es' ->
    real_directory (Directory m es) (nm :: q) es'.

(** An entry of a real directory under the root, at any depth. *)
Definition listed (root : node) (p : Path) : Prop :=
  exists q es nm n,
    real_directory root q es /\ In (nm, n) es /\ p = joinpath q nm.

(** [os.lstat]-style lookup: the node a path names when no link is
    followed, permissions aside. *)
Fixpoint lwalk (n : node) (p : Path) : option node :=
  match p with
  | [] => Some n
  | nm :: p' =>
      match n with
      | Directory _ es =>
          match find_entry nm es with
          | Some c => lwalk c p'
          | None => None
          end
      | _ => None
      end
  end.

(** What every file system guarantees of a tree: the names in one
    directory are pairwise distinct, and no name holds the separator. *)
Fixpoint distinct (l : list string) : bool :=
  match l with
  | [] => true
  | x :: l' => negb (existsb (String.eqb x) l') && distinct l'
  end.

Definition valid_name (nm : string) : bool := (rfind "/"%char nm =? -1)%Z.

Fixpoint well_formed (n : node) : bool :=
  match n with
  | Directory _ es =>
      distinct (map fst es)
      && forallb (fun e => valid_name (fst e) && well_formed (snd e)) es
  | _ => true
  end.

End FS.

(* ------------------------------------------------------------------ *)
(** ** Computations: exceptions and a log of I/O operations *)

Module Run.
Import PurePath Exceptions FS.
Local Open Scope string_scope.

(** One I/O operation on an entry: the metadata query of [is_file], the
    open-and-read of [read_text], the line written by [print]. *)
Inductive event :=
| EvStat (p : Path)
| EvRead (p : Path)
| EvPrint (p : Path).

(** The entry an operation is on. *)
Definition event_path (ev : event) : Path :=
  match ev with EvStat p | EvRead p | EvPrint p => p end.

Definition trace := list event.

Definition M (A : Type) : Type := trace -> (exn + A) * trace.

Definition ret {A} (a : A) : M A := fun tr => (inr a, tr).

Definition bind {A B} (m : M A) (k : A -> M B) : M B :=
  fun tr =>
    match m tr with
    | (inr a, tr') => k a tr'
    | (inl e, tr') => (inl e, tr')
    end.

Definition raise {A} (e : exn) : M A := fun tr => (inl e, tr).

(** [try: m] with the exception, if any, handed to the caller. *)
Definition try {A} (m : M A) : M (exn + A) :=
  fun tr => let (r, tr') := m tr in (inr r, tr').

Definition emit (ev : event) : M unit := fun tr => (inr tt, (tr ++ [ev])%list).

(** [for x in xs: body(x)]; an exception leaving the body ends the loop. *)
Fixpoint for_each {A} (xs : list A) (body : A -> M unit) : M unit :=
  match xs with
  | [] => ret tt
  | x :: xs' => bind (body x) (fun _ => for_each xs' body)
  end.

(** The end of line that [print] appends. *)
Definition NL : string := String "010"%char EmptyString.

(** The text on standard output that a log accounts for: for each print,
    the rendered path and the end of line. *)
Fixpoint stdout (tr : trace) : string :=
  match tr with
  | [] => ""
  | EvPrint p :: tr' => str p ++ NL ++ stdout tr'
  | _ :: tr' => stdout tr'
  end.

(** The entries a log shows to have been examined, in order. *)
Fixpoint examined (tr : trace) : list Path :=
  match tr with
  | [] => []
  | EvStat p :: tr' => p :: examined tr'
  | _ :: tr' => examined tr'
  end.

(** The paths a log shows to have been printed, in order. *)
Fixpoint printed (tr : trace) : list Path :=
  match tr with
  | [] => []
  | EvPrint p :: tr' => p :: printed tr'
  | _ :: tr' => printed tr'
  end.

End Run.

Declare Scope io_scope.
Delimit Scope io_scope with io.
Notation "x <- m ;; k" := (Run.bind m (fun x => k))
  (at level 61, m at next level, right associativity) : io_scope.
Notation "m ;;; k" := (Run.bind m (fun _ => k))
  (at level 61, right associativity) : io_scope.

(* ------------------------------------------------------------------ *)
(** ** The script *)

Module Scan.
Import Text Utf8 PurePath Exceptions FS Run.
Local Open Scope io_scope.
Local Open Scope string_scope.

(** What a run depends on: the tree under [Path('.')], standard output,
    and the depth the interpreter lets the walk of [rglob] nest.

    [console printed path] is the exception that writing the line for
    [path] raises once the paths [printed] have been written, if it raises
    one: [UnicodeEncodeError] when the encoding of standard output cannot
    render the name, an [OSError] when the stream is closed or full. *)
Record world := {
  root : node;
  console : list Path -> Path -> option exn;
  recursion_limit : nat
}.

Section WithWorld.

Variable w : world.

(** [path.is_file()] ([pathlib.py], [Path.is_file]): whether the path,
    links followed, is a regular file.  An [OSError] of [stat] that
    [_ignore_error] knows makes it [False]; any other is raised again. *)
Definition is_file (path : Path) : M bool :=
  emit (EvStat path) ;;;
  match stat (root w) path with
  | inr (Regular _) => ret true
  | inr _ => ret false
  | inl e => if ignore_error e then ret false else raise (OSError e)
  end.

(** What [open(path, 'rb').read()] gives. *)
Definition read_bytes (path : Path) : exn + list byte :=
  match stat (root w) path with
  | inr (Regular (Bytes bs)) | inr (Special (Bytes bs)) => inr bs
  | inr (Regular (Unreadable e)) | inr (Special (Unreadable e)) =>
      inl (OSError e)
  | inr (Directory _ _) => inl (OSError EISDIR)
  | inr (Symlink _) => inl (OSError ELOOP)
  | inl e => inl (OSError e)
  end.

(** [path.read_text(encoding='utf-8')]: the whole file decoded, errors
    strict (the default), newlines translated. *)
Definition read_text (path : Path) : M text :=
  emit (EvRead path) ;;;
  match read_bytes path with
  | inl e => raise e
  | inr bs =>
      match decode bs with
      | Some t => ret (translate_newlines t)
      | None => raise UnicodeDecodeError
      end
  end.

(** [print(f"{path}")]: the line is written, or the exception of the
    write is raised and nothing of the line counts as written. *)
Definition print (path : Path) : M unit :=
  fun tr =>
    match console w (printed tr) path with
    | None => emit (EvPrint path) tr
    | Some e => raise e tr
    end.

Definition SKIP : list string :=
  [".png"; ".jpg"; ".jpeg"; ".gif"; ".pdf"; ".zip"; ".ico"; ".woff";
   ".woff2"; ".ttf"].

(** [s in {...}] *)
Definition in_skip (s : string) : bool := existsb (String.eqb s) SKIP.

(** The body of the loop.  Only [read_text] is inside the [try]. *)
Definition visit (path : Path) : M unit :=
  b <- is_file path ;;
  if b then
    if negb (in_skip (suffix path)) then
      r <- try (read_text path) ;;
      match r with
      | inl e =>
          if isinstance_Exception e then ret tt   (* continue *)
          else raise e
      | inr text =>
          if contains REPLACEMENT text then print path else ret tt
      end
    else ret tt
  else ret tt.

(** The loop over the entries enumerated so far. *)
Definition scan (paths : list Path) : M unit := for_each paths visit.

(** The script.  [rglob] is a generator: the entries it yields before it
    raises are visited, then its exception leaves the [for] statement. *)
Definition main : M unit :=
  let (paths, stopped) := rglob (recursion_limit w) (root w) in
  scan paths ;;;
  match stopped with
  | Some e => raise e
  | None => ret tt
  end.

End WithWorld.

(** The entries the enumeration yields. *)
Definition enumerated (w : world) : list Path :=
  fst (rglob (recursion_limit w) (root w)).

(** A run from an empty log: how it ends and what it did. *)
Definition outcome (w : world) : exn + unit := fst (main w []).
Definition log (w : world) : trace := snd (main w []).
Definition output (w : world) : string := stdout (log w).

(** The path was printed. *)
Definition reported (w : world) (p : Path) : Prop := In (EvPrint p) (log w).

(** The file was opened, read and handed to the decoder. *)
Definition decoded (w : world) (p : Path) : Prop := In (EvRead p) (log w).

(** [is_file] was called on the path: the loop body ran on it. *)
Definition visited (w : world) (p : Path) : Prop := In (EvStat p) (log w).

(** *** The loop body read as a function of the world

    The tests of the body as pure functions, the operations one iteration
    performs and how it ends, given the paths printed before it;
    [ScanFacts.visit_run] and [ScanFacts.scan_run] show that [visit] and
    [scan] do exactly these. *)
Section Views.
Variable w : world.

(** The error that [is_file] raises, if it raises. *)
Definition stat_error (p : Path) : option errno :=
  match stat (root w) p with
  | inl e => if ignore_error e then None else Some e
  | inr _ => None
  end.

Definition regular (p : Path) : bool :=
  match stat (root w) p with
  | inr (Regular _) => true
  | _ => false
  end.

Definition flagged (p : Path) : bool :=
  match read_bytes w p with
  | inr bs =>
      match decode bs with
      | Some t => contains REPLACEMENT (translate_newlines t)
      | None => false
      end
  | inl _ => false
  end.

(** The three tests passed: the body calls [print]. *)
Definition matching (p : Path) : bool :=
  regular p && negb (in_skip (suffix p)) && flagged p.

Definition visit_events (h : list Path) (p : Path) : trace :=
  EvStat p ::
    (if regular p && negb (in_skip (suffix p))
     then EvRead p ::
            (if flagged p
             then match console w h p with
                  | None => [EvPrint p]
                  | Some _ => []
                  end
             else [])
     else []).

Definition visit_result (h : list Path) (p : Path) : exn + unit :=
  match stat_error p with
  | Some e => inl (OSError e)
  | None =>
      if matching p
      then match console w h p with
           | None => inr tt
           | Some e => inl e
           end
      else inr tt
  end.

Fixpoint scan_events (h : list Path) (ps : list Path) : trace :=
  match ps with
  | [] => []
  | p :: ps' =>
      (visit_events h p ++
         match visit_result h p with
         | inr _ => scan_events (h ++ printed (visit_events h p)) ps'
         | inl _ => []
         end)%list
  end.

Fixpoint scan_result (h : list Path) (ps : list Path) : exn + unit :=
  match ps with
  | [] => inr tt
  | p :: ps' =>
      match visit_result h p with
      | inr _ => scan_result (h ++ printed (visit_events h p)) ps'
      | inl e => inl e
      end
  end.

End Views.

End Scan.

(* ------------------------------------------------------------------ *)
(** ** Sample worlds *)

Module Examples.
Import Text Utf8 PurePath Exceptions FS Run Scan.
Local Open Scope string_scope.

(** The UTF-8 encoding of U+FFFD, and a byte string that is not UTF-8. *)
Definition replacement_bytes : list byte := [xef; xbf; xbd].
Definition invalid_bytes : list byte := [xff; xfe].
Definition hello_bytes : list byte := bytes_of_string "hello world".

(** Standard output with the default UTF-8 encoding and strict errors: a
    name whose bytes are not UTF-8 reaches Python as lone surrogates, and
    writing it raises [UnicodeEncodeError]. *)
Definition utf8_console : list Path -> Path -> option exn :=
  fun _ p =>
    match decode (bytes_of_string (str p)) with
    | Some _ => None
    | None => Some UnicodeEncodeError
    end.


(** A tree seen with the UTF-8 console and the default recursion limit. *)
Definition world_of (tree : node) : world :=
  {| root := tree; console := utf8_console; recursion_limit := 1000 |}.

(** Directories that can be listed but not searched (mode [r--]), and
    searched but not listed (mode [--x]). *)
Definition unsearchable : mode :=
  {| scan_error := None; search_error := Some EACCES |}.
Definition unlistable : mode :=
  {| scan_error := Some EACCES; search_error := None |}.

(** A root holding only [bad.txt] with the bytes FF FE. *)
Definition bad_tree : node :=
  Directory rwx [("bad.txt", Regular (Bytes invalid_bytes))].

Definition bad_world : world := world_of bad_tree.

(** A root where nothing is to be reported. *)
Definition quiet_tree : node :=
  Directory rwx
    [("good.txt", Regular (Bytes hello_bytes));
     ("logo.png", Regular (Bytes replacement_bytes));
     ("bad.txt", Regular (Bytes invalid_bytes));
     ("empty", Directory rwx [])].

Definition quiet_world : world := world_of quiet_tree.

(** A root with a bit of everything. *)
Definition sample_tree : node :=
  Directory rwx
    [("bad.txt", Regular (Bytes invalid_bytes));
     ("rep.txt", Regular (Bytes replacement_bytes));
     ("good.txt", Regular (Bytes hello_bytes));
     ("logo.png", Regular (Bytes replacement_bytes));
     ("LOGO.PNG", Regular (Bytes replacement_bytes));
     (".png", Regular (Bytes replacement_bytes));
     ("a.png.txt", Regular (Bytes replacement_bytes));
     ("a.txt.png", Regular (Bytes replacement_bytes));
     ("locked.txt", Regular (Unreadable EACCES));
     ("null", Special (Bytes replacement_bytes));
     ("dangling", Symlink (inl ENOENT));
     ("sub",
       Directory rwx
         [("gone.txt", Regular (Unreadable ENOENT));
          ("deep",
            Directory rwx
              [("er", Directory rwx [("z.txt", Regular (Bytes replacement_bytes))])])]);
     ("dirlink",
       Symlink (inr (Directory rwx [("in.txt", Regular (Bytes replacement_bytes))])));
     ("filelink", Symlink (inr (Regular (Bytes replacement_bytes))))].

Definition sample_world : world := world_of sample_tree.

(** A directory that cannot be listed, holding files that would match. *)
Definition locked_tree : node :=
  Directory rwx
    [("locked",
       Directory unlistable
         [("rep.txt", Regular (Bytes replacement_bytes));
          ("a.png.txt", Regular (Bytes replacement_bytes))])].

Definition locked_world : world := world_of locked_tree.

(** A directory that can be listed but not searched: [stat] on its entries
    is refused.  A later directory holds a file that would match. *)
Definition nosearch_tree : node :=
  Directory rwx
    [("nosearch", Directory unsearchable [("f.txt", Regular (Bytes hello_bytes))]);
     ("later", Directory rwx [("z.txt", Regular (Bytes replacement_bytes))])].

Definition nosearch_world : world := world_of nosearch_tree.

(** A name that is not UTF-8: the byte FF followed by [.txt]. *)
Definition raw_name : string := String "255"%char ".txt".

(** Three matching files, one under a name that standard output cannot
    render; the same three entries listed in two orders. *)
Definition names_tree : node :=
  Directory rwx
    [("a.txt", Regular (Bytes replacement_bytes));
     (raw_name, Regular (Bytes replacement_bytes));
     ("z.txt", Regular (Bytes replacement_bytes))].


Definition names_world : world := world_of names_tree.


(** Directories nested [depth] levels deep under a directory, and no
    file anywhere. *)
Fixpoint chain (depth : nat) : node :=
  match depth with
  | O => Directory rwx []
  | S d => Directory rwx [("d", chain d)]
  end.

(** A root holding nothing but directories, nested deeper than the
    default recursion limit lets the walk go. *)
Definition nested_world : world := world_of (chain 1001).


Definition deep_last_tree : node :=
  Directory rwx
    [("b", Directory rwx [("rep.txt", Regular (Bytes replacement_bytes))]);
     ("deep", chain 1000)].

Definition deep_last_world : world := world_of deep_last_tree.

(** An empty root. *)
Definition empty_world : world := world_of (Directory rwx []).

(** Membership in a concrete enumeration. *)
Ltac enumerated :=
  vm_compute; repeat (first [left; reflexivity | right]).

End Examples.

(* ------------------------------------------------------------------ *)
(** ** Facts about text and the decoder *)

Module TextFacts.
Import Text Utf8.

Lemma contains_In (c : codepoint) (t : text) :
  contains c t = true <-> In c t.
Proof.
  unfold contains. rewrite existsb_exists. split.
  - intros [x [Hx Heq]]. apply N.eqb_eq in Heq. now subst.
  - intros H. exists c. split; [assumption | apply N.eqb_refl].
Qed.

Lemma contains_false (c : codepoint) (t : text) :
  contains c t = false <-> ~ In c t.
Proof.
  rewrite <- contains_In. destruct (contains c t); split; intro H.
  - discriminate.
  - exfalso. now apply H.
  - intro H'. discriminate.
  - reflexivity.
Qed.

(** Newline translation rewrites CR and LF only: any other character is
    in the translated text exactly when it is in the decoded one. *)
Lemma translate_newlines_In_bounded (c : codepoint) :
  c <> CR -> c <> LF ->
  forall n (t : text), List.length t <= n -> (In c (translate_newlines t) <-> In c t).
Proof.
  intros Hcr Hlf. induction n as [|n IH]; intros t Hlen.
  - destruct t; [reflexivity | simpl in Hlen; lia].
  - destruct t as [|a t']; [reflexivity|].
    simpl in Hlen. cbn [translate_newlines].
    destruct (N.eqb a CR) eqn:Ha.
    + apply N.eqb_eq in Ha. subst a.
      destruct t' as [|b t''].
      * simpl. split; intros [H|[]]; congruence.
      * destruct (N.eqb b LF) eqn:Hb.
        -- apply N.eqb_eq in Hb. subst b. simpl in Hlen.
           cbn [In]. rewrite (IH t'') by lia.
           split; [intros [H|H] | intros [H|[H|H]]];
             try congruence; auto.
        -- cbn [In] in *. rewrite (IH (b :: t'')) by lia. cbn [In].
           split; intros [H|H]; try congruence; auto.
    + cbn [In]. rewrite (IH t') by lia. reflexivity.
Qed.

Lemma translate_newlines_REPLACEMENT (t : text) :
  In REPLACEMENT (translate_newlines t) <-> In REPLACEMENT t.
Proof.
  apply translate_newlines_In_bounded with (n := List.length t);
    [discriminate | discriminate | lia].
Qed.

Lemma contains_translate_newlines (t : text) :
  contains REPLACEMENT (translate_newlines t) = contains REPLACEMENT t.
Proof.
  destruct (contains REPLACEMENT t) eqn:E.
  - apply contains_In, translate_newlines_REPLACEMENT, contains_In, E.
  - apply contains_false. rewrite translate_newlines_REPLACEMENT.
    now apply contains_false.
Qed.

(** The two byte strings the specification talks about. *)
Lemma decode_FF_FE : decode [xff; xfe] = None.
Proof. reflexivity. Qed.

Lemma decode_EF_BF_BD : decode [xef; xbf; xbd] = Some [REPLACEMENT].
Proof. reflexivity. Qed.

Lemma decode_hello_world :
  decode (bytes_of_string "hello world")
  = Some [104; 101; 108; 108; 111; 32; 119; 111; 114; 108; 100]%N.
Proof. reflexivity. Qed.

(** A start byte that no UTF-8 sequence begins with makes the whole
    decode fail, whatever follows. *)
Lemma decode_invalid_start (b : byte) (bs : list byte) :
  (0x80 <= val b < 0xC2)%N \/ (0xF5 <= val b)%N -> decode (b :: bs) = None.
Proof.
  intros H. cbn [decode].
  destruct (val b <? 0x80)%N eqn:E1; [apply N.ltb_lt in E1; lia|].
  destruct (val b <? 0xC2)%N eqn:E2; [reflexivity|].
  apply N.ltb_ge in E2.
  destruct (val b <? 0xE0)%N eqn:E3; [apply N.ltb_lt in E3; lia|].
  destruct (val b <? 0xF0)%N eqn:E4; [apply N.ltb_lt in E4; lia|].
  destruct (val b <? 0xF5)%N eqn:E5; [apply N.ltb_lt in E5; lia|].
  reflexivity.
Qed.

End TextFacts.

(* ------------------------------------------------------------------ *)
(** ** Facts about [suffix] *)

Module SuffixFacts.
Import PurePath.
Local Open Scope Z_scope.

Lemma rfind_lower_bound (c : ascii) (s : string) : -1 <= rfind c s.
Proof.
  induction s as [|a s IH]; cbn [rfind]; [lia|].
  destruct (0 <=? rfind c s) eqn:E.
  - apply Z.leb_le in E. lia.
  - destruct (Ascii.eqb a c); lia.
Qed.

(** The last occurrence is the one written last. *)
Lemma rfind_last_occurrence (c : ascii) (s t : string) :
  rfind c t = -1 -> rfind c (s ++ String c t) = len s.
Proof.
  intros Ht. unfold len. induction s as [|a s IH].
  - cbn [append rfind]. rewrite Ht. cbn. now rewrite Ascii.eqb_refl.
  - cbn [append rfind String.length]. rewrite IH.
    destruct (0 <=? Z.of_nat (String.length s)) eqn:E.
    + lia.
    + apply Z.leb_gt in E. lia.
Qed.

Lemma drop_append (s t : string) : drop (String.length s) (s ++ t) = t.
Proof. induction s as [|a s IH]; [now destruct t | exact IH]. Qed.

Lemma length_append (s t : string) :
  String.length (s ++ t) = (String.length s + String.length t)%nat.
Proof. induction s as [|a s IH]; cbn; [reflexivity | now rewrite IH]. Qed.

Lemma length_pos (s : string) : s <> EmptyString -> (0 < String.length s)%nat.
Proof. destruct s; [congruence | cbn; lia]. Qed.

(** A name [stem.ext] with a stem and a dot-free extension has suffix
    [.ext], whatever dots the stem holds. *)
Lemma suffix_of_name_final (stem ext : string) :
  stem <> EmptyString -> ext <> EmptyString -> rfind "." ext = -1 ->
  suffix_of_name (stem ++ String "." ext) = String "." ext.
Proof.
  intros Hs He Hd. unfold suffix_of_name.
  rewrite (rfind_last_occurrence "."%char stem ext Hd).
  apply length_pos in Hs, He.
  unfold len. rewrite length_append. cbn [String.length].
  replace (0 <? Z.of_nat (String.length stem)) with true
    by (symmetry; apply Z.ltb_lt; lia).
  replace (Z.of_nat (String.length stem)
           <? Z.of_nat (String.length stem + S (String.length ext)) - 1)
    with true by (symmetry; apply Z.ltb_lt; lia).
  cbn [andb]. unfold slice_from. rewrite Nat2Z.id. apply drop_append.
Qed.


Lemma name_joinpath (dir : Path) (nm : string) : name (joinpath dir nm) = nm.
Proof. unfold name, joinpath. apply last_last. Qed.

Lemma suffix_joinpath (dir : Path) (nm : string) :
  suffix (joinpath dir nm) = suffix_of_name nm.
Proof. unfold suffix. now rewrite name_joinpath. Qed.

End SuffixFacts.

(* ------------------------------------------------------------------ *)
(** ** Facts about names and rendered paths *)

Module NameFacts.
Import PurePath FS Scan SuffixFacts.
Local Open Scope string_scope.
Local Open Scope Z_scope.

Lemma rfind_absent_cons (c a : ascii) (s : string) :
  rfind c (String a s) = -1 -> a <> c /\ rfind c s = -1.
Proof.
  cbn [rfind]. pose proof (rfind_lower_bound c s) as Hlb.
  destruct (0 <=? rfind c s) eqn:E.
  - apply Z.leb_le in E. lia.
  - apply Z.leb_gt in E. destruct (Ascii.eqb a c) eqn:Ea; [discriminate|].
    intros _. split; [|lia]. intros ->. now rewrite Ascii.eqb_refl in Ea.
Qed.

(** Where [rfind] finds the character, the string splits there, and the
    character does not occur after it. *)
Lemma rfind_split (c : ascii) (s : string) :
  0 <= rfind c s ->
  exists a b, s = a ++ String c b
              /\ Z.of_nat (String.length a) = rfind c s
              /\ rfind c b = -1.
Proof.
  induction s as [|x s IH]; cbn [rfind]; [lia|].
  pose proof (rfind_lower_bound c s) as Hlb.
  destruct (0 <=? rfind c s) eqn:E.
  - apply Z.leb_le in E. intros _. destruct (IH E) as (a & b & Hs & Hl & Hb).
    exists (String x a), b. repeat split.
    + cbn. now rewrite <- Hs.
    + cbn [String.length]. lia.
    + assumption.
  - apply Z.leb_gt in E. destruct (Ascii.eqb x c) eqn:Ex; [|lia].
    apply Ascii.eqb_eq in Ex. subst x. intros _.
    exists "", s. repeat split. lia.
Qed.

(** The shape of a non-empty suffix. *)
Lemma suffix_of_name_shape (nm : string) :
  suffix_of_name nm <> "" ->
  exists stem ext,
    nm = stem ++ String "." ext /\ stem <> "" /\ ext <> ""
    /\ rfind "." ext = -1 /\ suffix_of_name nm = String "." ext.
Proof.
  unfold suffix_of_name.
  destruct ((0 <? rfind "." nm) && (rfind "." nm <? len nm - 1)) eqn:E;
    [|congruence].
  intros _. apply andb_true_iff in E. destruct E as [E1 E2].
  apply Z.ltb_lt in E1, E2.
  destruct (rfind_split "." nm) as (a & b & Hs & Hl & Hb); [lia|].
  exists a, b. rewrite <- Hl in *.
  assert (Hlen : len nm = Z.of_nat (String.length a) + 1 + Z.of_nat (String.length b)).
  { unfold len. rewrite Hs at 1. rewrite length_append. cbn [String.length]. lia. }
  repeat split.
  - exact Hs.
  - intros ->. cbn in E1. lia.
  - intros ->. cbn in Hlen. lia.
  - exact Hb.
  - unfold slice_from. rewrite Nat2Z.id. rewrite Hs at 1. apply drop_append.
Qed.

Lemma in_skip_In (s : string) : in_skip s = true <-> In s SKIP.
Proof.
  unfold in_skip. rewrite existsb_exists. split.
  - intros [x [Hx E]]. apply String.eqb_eq in E. now subst.
  - intros H. exists s. split; [assumption | apply String.eqb_refl].
Qed.

(** Each of the ten extensions is a dot followed by dot-free characters. *)
Lemma SKIP_shape (ext : string) :
  In ext SKIP -> exists e, ext = String "." e /\ e <> "" /\ rfind "." e = -1.
Proof.
  unfold SKIP. cbn [In]. intros H.
  repeat (destruct H as [<-|H];
          [eexists; split; [reflexivity | split; [discriminate | reflexivity]]|]).
  contradiction.
Qed.

(** *** Rendered paths *)

Lemma concat_cons (x y : string) (l : list string) :
  String.concat "/" (x :: y :: l) = x ++ String "/" (String.concat "/" (y :: l)).
Proof. reflexivity. Qed.

Lemma string_append_assoc (a b c : string) : (a ++ b) ++ c = a ++ (b ++ c).
Proof. induction a as [|x a IH]; cbn; [reflexivity | now rewrite IH]. Qed.

(** The rendering of [parent / name]: the name alone under the root, else
    the rendering of the parent, the separator and the name. *)
Lemma str_joinpath_root (nm : string) : str (joinpath [] nm) = nm.
Proof. reflexivity. Qed.

Lemma concat_snoc (x : string) (q : list string) (nm : string) :
  String.concat "/" ((x :: q) ++ [nm])
  = String.concat "/" (x :: q) ++ String "/" nm.
Proof.
  revert x. induction q as [|y q IH]; intros x; [reflexivity|].
  change ((x :: y :: q) ++ [nm])%list with (x :: ((y :: q) ++ [nm]))%list.
  change (((y :: q) ++ [nm]))%list with (y :: (q ++ [nm]))%list.
  rewrite (concat_cons x y (q ++ [nm])).
  change (y :: (q ++ [nm]))%list with ((y :: q) ++ [nm])%list.
  rewrite IH, concat_cons.
  rewrite string_append_assoc. cbn [append]. reflexivity.
Qed.

Lemma str_joinpath (q : Path) (nm : string) :
  q <> [] -> str (joinpath q nm) = str q ++ String "/" nm.
Proof.
  destruct q as [|x q]; [congruence|]. intros _.
  unfold joinpath. exact (concat_snoc x q nm).
Qed.

End NameFacts.

(* ------------------------------------------------------------------ *)
(** ** Facts about the decoder *)

Module DecodeFacts.
Import Text Utf8.
Local Open Scope N_scope.

Lemma decode_Decodes_bounded (n : nat) :
  forall (bs : list byte) (t : text),
    (List.length bs <= n)%nat -> decode bs = Some t -> Decodes bs t.
Proof.
  induction n as [|n IH]; intros bs t Hlen H.
  - destruct bs; [|cbn in Hlen; lia]. cbn in H. inversion H. constructor.
  - destruct bs as [|b0 r0]; [cbn in H; inversion H; constructor|].
    cbn [decode] in H. cbn in Hlen.
    destruct (val b0 <? 0x80) eqn:E1.
    { apply N.ltb_lt in E1. destruct (decode r0) as [t'|] eqn:Hd; [|discriminate].
      cbn in H. inversion H; subst. constructor; [assumption|].
      apply IH; [lia | assumption]. }
    apply N.ltb_ge in E1.
    destruct (val b0 <? 0xC2) eqn:E2; [discriminate|]. apply N.ltb_ge in E2.
    destruct (val b0 <? 0xE0) eqn:E3.
    { apply N.ltb_lt in E3. destruct r0 as [|b1 r1]; [discriminate|].
      destruct (is_cont b1) eqn:C1; [|discriminate].
      destruct (decode r1) as [t'|] eqn:Hd; [|discriminate].
      cbn in H. inversion H; subst. constructor; try assumption; [lia|].
      apply IH; [cbn in Hlen; lia | assumption]. }
    apply N.ltb_ge in E3.
    destruct (val b0 <? 0xF0) eqn:E4.
    { apply N.ltb_lt in E4. destruct r0 as [|b1 [|b2 r2]]; try discriminate.
      destruct (second_ok b0 b1) eqn:C1; [|discriminate].
      destruct (is_cont b2) eqn:C2; [|discriminate].
      destruct (decode r2) as [t'|] eqn:Hd; [|discriminate].
      cbn in H. inversion H; subst. constructor; try assumption; [lia|].
      apply IH; [cbn in Hlen; lia | assumption]. }
    apply N.ltb_ge in E4.
    destruct (val b0 <? 0xF5) eqn:E5; [|discriminate].
    apply N.ltb_lt in E5. destruct r0 as [|b1 [|b2 [|b3 r3]]]; try discriminate.
    destruct (second_ok b0 b1) eqn:C1; [|discriminate].
    destruct (is_cont b2) eqn:C2; [|discriminate].
    destruct (is_cont b3) eqn:C3; [|discriminate].
    destruct (decode r3) as [t'|] eqn:Hd; [|discriminate].
    cbn in H. inversion H; subst. constructor; try assumption; [lia|].
    apply IH; [cbn in Hlen; lia | assumption].
Qed.

Lemma Decodes_decode (bs : list byte) (t : text) :
  Decodes bs t -> decode bs = Some t.
Proof.
  induction 1 as [ | b0 r t H0 _ IH | b0 b1 r t H0 C1 _ IH
                   | b0 b1 b2 r t H0 C1 C2 _ IH
                   | b0 b1 b2 b3 r t H0 C1 C2 C3 _ IH ];
    [reflexivity| | | |]; cbn [decode].
  - replace (val b0 <? 0x80) with true by (symmetry; apply N.ltb_lt; lia).
    now rewrite IH.
  - replace (val b0 <? 0x80) with false by (symmetry; apply N.ltb_ge; lia).
    replace (val b0 <? 0xC2) with false by (symmetry; apply N.ltb_ge; lia).
    replace (val b0 <? 0xE0) with true by (symmetry; apply N.ltb_lt; lia).
    now rewrite C1, IH.
  - replace (val b0 <? 0x80) with false by (symmetry; apply N.ltb_ge; lia).
    replace (val b0 <? 0xC2) with false by (symmetry; apply N.ltb_ge; lia).
    replace (val b0 <? 0xE0) with false by (symmetry; apply N.ltb_ge; lia).
    replace (val b0 <? 0xF0) with true by (symmetry; apply N.ltb_lt; lia).
    now rewrite C1, C2, IH.
  - replace (val b0 <? 0x80) with false by (symmetry; apply N.ltb_ge; lia).
    replace (val b0 <? 0xC2) with false by (symmetry; apply N.ltb_ge; lia).
    replace (val b0 <? 0xE0) with false by (symmetry; apply N.ltb_ge; lia).
    replace (val b0 <? 0xF0) with false by (symmetry; apply N.ltb_ge; lia).
    replace (val b0 <? 0xF5) with true by (symmetry; apply N.ltb_lt; lia).
    now rewrite C1, C2, C3, IH.
Qed.

(** [decode] computes the relation. *)
Lemma decode_Decodes (bs : list byte) (t : text) :
  decode bs = Some t <-> Decodes bs t.
Proof.
  split; [|apply Decodes_decode].
  apply decode_Decodes_bounded with (n := List.length bs). lia.
Qed.

(** *** The code point of a sequence, by arithmetic *)

Lemma lor_shiftl_low (a b n : N) :
  b < 2 ^ n -> N.lor (N.shiftl a n) b = a * 2 ^ n + b.
Proof.
  intros Hb.
  assert (Hdis : N.land (N.shiftl a n) b = 0).
  { apply N.bits_inj. intros i. rewrite N.land_spec, N.bits_0.
    destruct (N.ltb_spec i n) as [Hi|Hi].
    - now rewrite N.shiftl_spec_low.
    - rewrite <- (N.mod_small b (2 ^ n)) by assumption.
      rewrite N.mod_pow2_bits_high by assumption. apply andb_false_r. }
  rewrite <- N.lxor_lor by assumption.
  rewrite <- N.add_nocarry_lxor by assumption.
  now rewrite N.shiftl_mul_pow2.
Qed.

Lemma low6_mod (b : byte) : low6 b = val b mod 64.
Proof. unfold low6. change 0x3F with (N.ones 6). apply N.land_ones. Qed.

Lemma low6_bound (b : byte) : low6 b < 64.
Proof. rewrite low6_mod. now apply N.mod_lt. Qed.

Lemma cp2_arith (b0 b1 : byte) :
  cp2 b0 b1 = (val b0 mod 32) * 64 + val b1 mod 64.
Proof.
  unfold cp2. rewrite lor_shiftl_low by apply low6_bound.
  rewrite low6_mod. change 0x1F with (N.ones 5). now rewrite N.land_ones.
Qed.

Lemma cp3_arith (b0 b1 b2 : byte) :
  cp3 b0 b1 b2 = (val b0 mod 16) * 4096 + (val b1 mod 64) * 64 + val b2 mod 64.
Proof.
  unfold cp3. pose proof (low6_bound b1). pose proof (low6_bound b2).
  rewrite (lor_shiftl_low (low6 b1) (low6 b2) 6) by assumption.
  rewrite lor_shiftl_low by (change (2 ^ 12) with 4096; change (2 ^ 6) with 64; lia).
  rewrite !low6_mod. change 0x0F with (N.ones 4). rewrite N.land_ones.
  change (2 ^ 12) with 4096. change (2 ^ 6) with 64. change (2 ^ 4) with 16. lia.
Qed.

Lemma cp4_arith (b0 b1 b2 b3 : byte) :
  cp4 b0 b1 b2 b3
  = (val b0 mod 8) * 262144 + (val b1 mod 64) * 4096
    + (val b2 mod 64) * 64 + val b3 mod 64.
Proof.
  unfold cp4.
  pose proof (low6_bound b1). pose proof (low6_bound b2).
  pose proof (low6_bound b3).
  rewrite (lor_shiftl_low (low6 b2) (low6 b3) 6) by assumption.
  rewrite (lor_shiftl_low (low6 b1) _ 12)
    by (change (2 ^ 12) with 4096; change (2 ^ 6) with 64; lia).
  rewrite lor_shiftl_low
    by (change (2 ^ 18) with 262144; change (2 ^ 12) with 4096;
        change (2 ^ 6) with 64; lia).
  rewrite !low6_mod. change 0x07 with (N.ones 3). rewrite N.land_ones.
  change (2 ^ 18) with 262144. change (2 ^ 12) with 4096.
  change (2 ^ 6) with 64. change (2 ^ 3) with 8. lia.
Qed.

Lemma is_cont_range (b : byte) : is_cont b = true -> 0x80 <= val b <= 0xBF.
Proof.
  unfold is_cont. rewrite andb_true_iff, !N.leb_le. tauto.
Qed.

Lemma in_range_spec (lo hi : N) (b : byte) :
  in_range lo hi b = true -> lo <= val b <= hi.
Proof.
  unfold in_range. rewrite andb_true_iff, !N.leb_le. tauto.
Qed.

(** The second byte is always a continuation byte, in a range that
    depends on the first. *)
Lemma second_ok_range (b0 b1 : byte) :
  second_ok b0 b1 = true ->
  0x80 <= val b1 <= 0xBF
  /\ (val b0 = 0xE0 -> 0xA0 <= val b1)
  /\ (val b0 = 0xED -> val b1 <= 0x9F)
  /\ (val b0 = 0xF0 -> 0x90 <= val b1)
  /\ (val b0 = 0xF4 -> val b1 <= 0x8F).
Proof.
  unfold second_ok.
  destruct (val b0 =? 0xE0) eqn:E1;
    [apply N.eqb_eq in E1; intros H; apply in_range_spec in H; lia|].
  destruct (val b0 =? 0xED) eqn:E2;
    [apply N.eqb_eq in E2; intros H; apply in_range_spec in H; lia|].
  destruct (val b0 =? 0xF0) eqn:E3;
    [apply N.eqb_eq in E3; intros H; apply in_range_spec in H; lia|].
  destruct (val b0 =? 0xF4) eqn:E4;
    [apply N.eqb_eq in E4; intros H; apply in_range_spec in H; lia|].
  apply N.eqb_neq in E1, E2, E3, E4.
  intros H. apply is_cont_range in H. lia.
Qed.

(** Replacing [x mod k] by a bounded remainder that [lia] can use. *)
Ltac split_mod x k :=
  let q := fresh "q" in
  let m := fresh "m" in
  let Hq := fresh "Hq" in
  let Hm := fresh "Hm" in
  pose proof (N.div_mod x k ltac:(discriminate)) as Hq;
  pose proof (N.mod_lt x k ltac:(discriminate)) as Hm;
  remember (x / k) as q; remember (x mod k) as m;
  repeat match goal with H : q = _ |- _ => clear H end;
  repeat match goal with H : m = _ |- _ => clear H end.

Lemma byte_of_val (b : byte) (v : N) (b' : byte) :
  val b = v -> Byte.of_N v = Some b' -> b = b'.
Proof.
  intros Hv Hb. unfold val in Hv. rewrite <- Hv, Byte.of_to_N in Hb.
  now inversion Hb.
Qed.

Lemma cp2_bound (b0 b1 : byte) :
  0xC2 <= val b0 < 0xE0 -> is_cont b1 = true -> 0x80 <= cp2 b0 b1 < 0x800.
Proof.
  intros H0 H1. apply is_cont_range in H1. rewrite cp2_arith.
  split_mod (val b0) 32. split_mod (val b1) 64. lia.
Qed.

Lemma cp3_bound (b0 b1 b2 : byte) :
  0xE0 <= val b0 < 0xF0 -> second_ok b0 b1 = true -> is_cont b2 = true ->
  0x800 <= cp3 b0 b1 b2 < 0x10000
  /\ ~ (0xD800 <= cp3 b0 b1 b2 <= 0xDFFF).
Proof.
  intros H0 H1 H2. apply second_ok_range in H1. apply is_cont_range in H2.
  rewrite cp3_arith.
  split_mod (val b0) 16. split_mod (val b1) 64. split_mod (val b2) 64. lia.
Qed.

Lemma cp4_bound (b0 b1 b2 b3 : byte) :
  0xF0 <= val b0 < 0xF5 -> second_ok b0 b1 = true ->
  is_cont b2 = true -> is_cont b3 = true ->
  0x10000 <= cp4 b0 b1 b2 b3 <= 0x10FFFF.
Proof.
  intros H0 H1 H2 H3. apply second_ok_range in H1.
  apply is_cont_range in H2, H3. rewrite cp4_arith.
  split_mod (val b0) 8. split_mod (val b1) 64.
  split_mod (val b2) 64. split_mod (val b3) 64. lia.
Qed.

(** Only the bytes EF BF BD decode to U+FFFD. *)
Lemma cp3_REPLACEMENT (b0 b1 b2 : byte) :
  0xE0 <= val b0 < 0xF0 -> second_ok b0 b1 = true -> is_cont b2 = true ->
  cp3 b0 b1 b2 = REPLACEMENT ->
  b0 = xef /\ b1 = xbf /\ b2 = xbd.
Proof.
  intros H0 H1 H2 H. apply second_ok_range in H1. apply is_cont_range in H2.
  rewrite cp3_arith in H. unfold REPLACEMENT in H.
  assert (val b0 = 0xEF /\ val b1 = 0xBF /\ val b2 = 0xBD) as (V0 & V1 & V2).
  { split_mod (val b0) 16. split_mod (val b1) 64. split_mod (val b2) 64. lia. }
  repeat split; eapply byte_of_val; try eassumption; reflexivity.
Qed.

(** *** What decodes, and to what *)

Lemma Decodes_scalar_values (bs : list byte) (t : text) :
  Decodes bs t -> Forall scalar_value t.
Proof.
  induction 1 as [ | b0 r t H0 _ IH | b0 b1 r t H0 C1 _ IH
                   | b0 b1 b2 r t H0 C1 C2 _ IH
                   | b0 b1 b2 b3 r t H0 C1 C2 C3 _ IH ];
    constructor; try assumption; unfold scalar_value.
  - lia.
  - pose proof (cp2_bound _ _ H0 C1). lia.
  - pose proof (cp3_bound _ _ _ H0 C1 C2). lia.
  - pose proof (cp4_bound _ _ _ _ H0 C1 C2 C3). lia.
Qed.

Lemma Decodes_possible_bytes (bs : list byte) (t : text) :
  Decodes bs t -> Forall possible_byte bs.
Proof.
  induction 1 as [ | b0 r t H0 _ IH | b0 b1 r t H0 C1 _ IH
                   | b0 b1 b2 r t H0 C1 C2 _ IH
                   | b0 b1 b2 b3 r t H0 C1 C2 C3 _ IH ];
    try (apply second_ok_range in C1);
    repeat match goal with
           | H : is_cont _ = true |- _ => apply is_cont_range in H
           end;
    repeat (constructor; [unfold possible_byte; lia|]); try assumption.
  constructor.
Qed.

Lemma Decodes_REPLACEMENT_bytes (bs : list byte) (t : text) :
  Decodes bs t -> In REPLACEMENT t ->
  exists pre post, bs = (pre ++ [xef; xbf; xbd] ++ post)%list.
Proof.
  induction 1 as [ | b0 r t H0 _ IH | b0 b1 r t H0 C1 _ IH
                   | b0 b1 b2 r t H0 C1 C2 _ IH
                   | b0 b1 b2 b3 r t H0 C1 C2 C3 _ IH ];
    intros Hin; [contradiction| | | |]; destruct Hin as [Hhd | Htl].
  - unfold REPLACEMENT in Hhd. lia.
  - destruct (IH Htl) as (pre & post & ->). now exists (b0 :: pre), post.
  - pose proof (cp2_bound _ _ H0 C1). unfold REPLACEMENT in Hhd. lia.
  - destruct (IH Htl) as (pre & post & ->). now exists (b0 :: b1 :: pre), post.
  - destruct (cp3_REPLACEMENT _ _ _ H0 C1 C2 Hhd) as (-> & -> & ->).
    now exists [], r.
  - destruct (IH Htl) as (pre & post & ->).
    now exists (b0 :: b1 :: b2 :: pre), post.
  - pose proof (cp4_bound _ _ _ _ H0 C1 C2 C3). unfold REPLACEMENT in Hhd. lia.
  - destruct (IH Htl) as (pre & post & ->).
    now exists (b0 :: b1 :: b2 :: b3 :: pre), post.
Qed.

(** EF is neither a continuation byte nor a possible second byte, so a
    sequence never runs over the start of EF BF BD. *)
Lemma is_cont_EF : is_cont xef = false.
Proof. reflexivity. Qed.

Lemma second_ok_EF (b0 : byte) : second_ok b0 xef = false.
Proof.
  destruct (second_ok b0 xef) eqn:E; [|reflexivity].
  apply second_ok_range in E. cbn in E. lia.
Qed.

Lemma decode_EF_BF_BD_then (post : list byte) :
  decode (xef :: xbf :: xbd :: post)
  = option_map (cons REPLACEMENT) (decode post).
Proof. reflexivity. Qed.

Lemma Decodes_EF_BF_BD_then (post : list byte) (t : text) :
  Decodes (xef :: xbf :: xbd :: post) t -> In REPLACEMENT t.
Proof.
  intros H. apply Decodes_decode in H. rewrite decode_EF_BF_BD_then in H.
  destruct (decode post); inversion H. now left.
Qed.

Lemma bytes_REPLACEMENT_Decodes_bounded (n : nat) :
  forall (pre post : list byte) (t : text),
    (List.length pre <= n)%nat ->
    Decodes (pre ++ [xef; xbf; xbd] ++ post) t -> In REPLACEMENT t.
Proof.
  induction n as [|n IH]; intros pre post t Hlen H.
  - destruct pre; [|cbn in Hlen; lia]. exact (Decodes_EF_BF_BD_then _ _ H).
  - destruct pre as [|b0 pre]; [exact (Decodes_EF_BF_BD_then _ _ H)|].
    cbn [List.length] in Hlen. cbn [app] in H.
    inversion H as [ | c0 r t' H0 Hr | c0 c1 r t' H0 C1 Hr
                     | c0 c1 c2 r t' H0 C1 C2 Hr
                     | c0 c1 c2 c3 r t' H0 C1 C2 C3 Hr ]; subst.
    + right. apply (IH pre post); [lia | assumption].
    + destruct pre as [|b1 pre]; cbn [app List.length] in *;
        match goal with E : _ :: _ = _ :: _ |- _ => inversion E; subst end.
      * rewrite is_cont_EF in C1. discriminate.
      * right. apply (IH pre post); [lia | assumption].
    + destruct pre as [|b1 [|b2 pre]]; cbn [app List.length] in *;
        match goal with E : _ :: _ = _ :: _ |- _ => inversion E; subst end.
      * rewrite second_ok_EF in C1. discriminate.
      * rewrite is_cont_EF in C2. discriminate.
      * right. apply (IH pre post); [lia | assumption].
    + destruct pre as [|b1 [|b2 [|b3 pre]]]; cbn [app List.length] in *;
        match goal with E : _ :: _ = _ :: _ |- _ => inversion E; subst end.
      * rewrite second_ok_EF in C1. discriminate.
      * rewrite is_cont_EF in C2. discriminate.
      * rewrite is_cont_EF in C3. discriminate.
      * right. apply (IH pre post); [lia | assumption].
Qed.

Lemma bytes_REPLACEMENT_Decodes (pre post : list byte) (t : text) :
  Decodes (pre ++ [xef; xbf; xbd] ++ post) t -> In REPLACEMENT t.
Proof.
  apply bytes_REPLACEMENT_Decodes_bounded with (n := List.length pre). lia.
Qed.

(** Decoding distributes over concatenation at a character boundary. *)
Lemma Decodes_app (a b : list byte) (ta tb : text) :
  Decodes a ta -> Decodes b tb -> Decodes (a ++ b) (ta ++ tb).
Proof.
  induction 1; intros Hb; cbn [app]; [assumption| | | |];
    constructor; auto.
Qed.

Lemma Decodes_ascii (bs : list byte) :
  Forall (fun b => val b < 0x80) bs -> Decodes bs (map val bs).
Proof.
  induction 1 as [|b bs Hb _ IH]; cbn; constructor; assumption.
Qed.

End DecodeFacts.

(* ------------------------------------------------------------------ *)
(** ** Facts about the enumeration *)

Module TreeFacts.
Import PurePath Exceptions FS.

(** Induction on trees, with the hypothesis available for every entry of a
    directory. *)
Section NodeInduction.
Variable P : node -> Prop.
Hypothesis HRegular : forall c, P (Regular c).
Hypothesis HDirectory :
  forall m es, Forall (fun e => P (snd e)) es -> P (Directory m es).
Hypothesis HSymlink : forall t, P (Symlink t).
Hypothesis HSpecial : forall c, P (Special c).

Fixpoint node_induction (n : node) : P n :=
  match n with
  | Regular c => HRegular c
  | Directory m es =>
      HDirectory m es
        ((fix entries (l : list (string * node)) : Forall (fun e => P (snd e)) l :=
            match l with
            | [] => Forall_nil _
            | e :: l' => Forall_cons e (node_induction (snd e)) (entries l')
            end) es)
  | Symlink t => HSymlink t
  | Special c => HSpecial c
  end.
End NodeInduction.

Lemma real_directory_is_directory (n : node) (q : Path) (es : list (string * node)) :
  real_directory n q es -> exists m es0, n = Directory m es0.
Proof. intros H. destruct H; eauto. Qed.

(** Only directories that are directories themselves are descended
    into. *)
Lemma classify_Descend (here : option errno) (c : node) :
  classify here c = Descend -> exists m es, c = Directory m es.
Proof.
  assert (He : forall e, is_dir_error e <> Descend).
  { intros e. unfold is_dir_error.
    destruct (ignore_error e); [discriminate|].
    destruct (is_PermissionError e); discriminate. }
  destruct c as [c|m es|t|c]; unfold classify; try discriminate; [eauto|].
  destruct here as [e|]; [intros H; now apply He in H|].
  destruct (resolve (Symlink t)) as [e|n]; [|discriminate].
  intros H. now apply He in H.
Qed.

Lemma iterate_entries_In
      (descend : string -> node -> list (Path * list (string * node)) * option exn)
      (s : option errno) (l : list (string * node)) (x : Path * list (string * node)) :
  In x (fst (iterate_entries descend s l)) ->
  exists e, In e l /\ classify s (snd e) = Descend
            /\ In x (fst (descend (fst e) (snd e))).
Proof.
  induction l as [|a l IH]; cbn [iterate_entries]; [contradiction|].
  destruct (classify s (snd a)) eqn:Hc.
  - destruct (descend (fst a) (snd a)) as [ds [ex|]] eqn:Hd.
    + cbn. intros H. exists a. rewrite Hd.
      split; [now left | split; [exact Hc | exact H]].
    + destruct (iterate_entries descend s l) as [ds' r]. cbn in *.
      intros H. apply in_app_or in H. destruct H as [H|H].
      * exists a. rewrite Hd. split; [now left | split; [exact Hc | exact H]].
      * destruct (IH H) as (e & He & Hce & Hx). exists e.
        split; [now right | split; assumption].
  - intros H. destruct (IH H) as (e & He & Hce & Hx). exists e.
    split; [now right | split; assumption].
  - contradiction.
  - contradiction.
Qed.

(** The directories [rglob] descends into are real directories, and what
    is listed at one of them is its listing or nothing. *)
Lemma iterate_directories_sound (n : node) :
  forall limit above parent d l,
    In (d, l) (fst (iterate_directories limit above parent n)) ->
    exists q, d = (parent ++ q)%list
              /\ (l = [] \/ (above = None /\ real_directory n q l)).
Proof.
  induction n as [c|m es IH|t|c] using node_induction;
    intros limit above parent d l Hin; cbn [iterate_directories] in Hin;
    try (cbn in Hin; contradiction).
  assert (Hnil : (parent, @nil (string * node)) = (d, l) ->
            exists q, d = (parent ++ q)%list
                      /\ (l = [] \/ (above = None
                                      /\ real_directory (Directory m es) q l))).
  { intros Heq. inversion Heq; subst. exists [].
    split; [now rewrite app_nil_r | now left]. }
  destruct (scandir_error above m) as [e|] eqn:Hsc.
  - destruct (is_PermissionError e); cbn in Hin; [|contradiction].
    destruct Hin as [Heq|[]]. now apply Hnil.
  - unfold scandir_error in Hsc. destruct above as [e|]; [discriminate|].
    assert (Hl : listable m = true) by (unfold listable; now rewrite Hsc).
    assert (Hhere : (parent, es) = (d, l) ->
              exists q, d = (parent ++ q)%list
                        /\ (l = [] \/ (@None errno = None
                                        /\ real_directory (Directory m es) q l))).
    { intros Heq. inversion Heq; subst. exists [].
      split; [now rewrite app_nil_r|]. right. split; [reflexivity|].
      now constructor. }
    destruct limit as [|limit'].
    + cbn in Hin. destruct Hin as [Heq|[]]. now apply Hhere.
    + destruct (iterate_entries _ (search_error m) es) as [ds r] eqn:He.
      cbn in Hin. destruct Hin as [Heq|Hin]; [now apply Hhere|].
      assert (Hin' : In (d, l) (fst (iterate_entries
                (fun nm c => iterate_directories limit' (search_error m)
                               (joinpath parent nm) c)
                (search_error m) es))) by (rewrite He; exact Hin).
      apply iterate_entries_In in Hin'.
      destruct Hin' as ([nm c] & Hmem & Hc & Hx). cbn [fst snd] in *.
      rewrite Forall_forall in IH. specialize (IH _ Hmem _ _ _ _ _ Hx).
      cbn [snd] in IH. destruct IH as [q [-> Hq]].
      exists (nm :: q). split.
      * unfold joinpath. now rewrite <- app_assoc.
      * destruct Hq as [->|[Hs Hq]]; [now left|]. right.
        split; [reflexivity|].
        destruct (classify_Descend _ _ Hc) as (m1 & es1 & ->).
        assert (Hse : searchable m = true)
          by (unfold searchable; now rewrite Hs).
        econstructor; eassumption.
Qed.

(** Every path the enumeration yields is an entry of a real directory. *)
Lemma rglob_listed (limit : nat) (root : node) (p : Path) :
  In p (fst (rglob limit root)) -> listed root p.
Proof.
  unfold rglob. destruct root as [c|m es|t|c]; try (cbn; contradiction).
  destruct (iterate_directories limit None [] (Directory m es)) as [ds r] eqn:He.
  cbn [fst]. intros H. apply in_flat_map in H. destruct H as [[d l] [Hd Hp]].
  unfold select_all in Hp. cbn [fst snd] in Hp.
  apply in_map_iff in Hp. destruct Hp as [[nm n] [<- Hmem]].
  assert (Hd' : In (d, l) (fst (iterate_directories limit None [] (Directory m es))))
    by (rewrite He; exact Hd).
  apply iterate_directories_sound in Hd'. destruct Hd' as [q [-> Hq]].
  destruct Hq as [->|[_ Hq]]; [contradiction|].
  exists q, l, nm, n. now repeat split.
Qed.

(** *** Well-formed trees *)

Lemma distinct_NoDup (l : list string) : distinct l = true <-> NoDup l.
Proof.
  induction l as [|x l IH]; cbn.
  - split; [constructor | reflexivity].
  - rewrite andb_true_iff, negb_true_iff, IH, NoDup_cons_iff.
    assert (Hx : existsb (String.eqb x) l = false <-> ~ In x l).
    { split.
      - intros H Hin. assert (existsb (String.eqb x) l = true); [|congruence].
        apply existsb_exists. exists x. split; [assumption | apply String.eqb_refl].
      - intros H. destruct (existsb (String.eqb x) l) eqn:E; [|reflexivity].
        apply existsb_exists in E. destruct E as [y [Hy E]].
        apply String.eqb_eq in E. subst y. contradiction. }
    now rewrite Hx.
Qed.

Lemma find_entry_In (nm : string) (es : list (string * node)) (n : node) :
  NoDup (map fst es) -> In (nm, n) es -> find_entry nm es = Some n.
Proof.
  induction es as [|[nm' n'] es IH]; intros Hnd Hin; [contradiction|].
  cbn in Hnd. apply NoDup_cons_iff in Hnd. destruct Hnd as [Hne Hnd].
  cbn. destruct Hin as [Heq | Hin].
  - inversion Heq; subst. now rewrite String.eqb_refl.
  - destruct (String.eqb nm nm') eqn:E.
    + apply String.eqb_eq in E. subst nm'. exfalso. apply Hne.
      change nm with (fst (nm, n)). now apply in_map.
    + now apply IH.
Qed.

Lemma well_formed_Directory (m : mode) (es : list (string * node)) :
  well_formed (Directory m es) = true ->
  NoDup (map fst es)
  /\ forall nm n, In (nm, n) es -> valid_name nm = true /\ well_formed n = true.
Proof.
  cbn [well_formed]. rewrite andb_true_iff, distinct_NoDup, forallb_forall.
  intros [Hnd Hall]. split; [assumption|]. intros nm n Hin.
  specialize (Hall _ Hin). cbn [fst snd] in Hall.
  now apply andb_true_iff in Hall.
Qed.

Lemma real_directory_lwalk (root : node) (q : Path) (es : list (string * node)) :
  real_directory root q es ->
  well_formed root = true ->
  exists m, lwalk root q = Some (Directory m es).
Proof.
  induction 1 as [m es Hl | m m1 es es1 es' nm q Hl Hs Hin Hq IH]; intros Hwf;
    [now exists m|].
  apply well_formed_Directory in Hwf. destruct Hwf as [Hnd Hall].
  cbn [lwalk]. rewrite (find_entry_In _ _ _ Hnd Hin).
  apply IH. now apply (Hall _ _ Hin).
Qed.

Lemma real_directory_prefix (q r : Path) :
  forall (root : node) (es : list (string * node)),
    real_directory root (q ++ r) es -> exists es0, real_directory root q es0.
Proof.
  induction q as [|nm q IH]; intros root es H.
  - inversion H; subst; eexists; constructor; eassumption.
  - cbn in H. inversion H as [|m m1 es0 es1 es' nm' q' Hl Hs Hin Hq]; subst.
    destruct (IH _ _ Hq) as [es2 H2]. exists es2. econstructor; eassumption.
Qed.

(** Nothing is listed below a node that is not a directory itself. *)
Lemma not_listed_below (root : node) (q rest : Path) (n : node) :
  well_formed root = true ->
  lwalk root q = Some n ->
  (forall m es, n <> Directory m es) ->
  rest <> [] ->
  ~ listed root (q ++ rest).
Proof.
  intros Hwf Hq Hn Hrest (q' & es & nm & c & Hq' & _ & E).
  destruct (exists_last Hrest) as (rest' & nm' & ->).
  unfold joinpath in E. rewrite app_assoc in E.
  apply app_inj_tail in E. destruct E as [<- _].
  apply real_directory_prefix in Hq'. destruct Hq' as [es0 H0].
  destruct (real_directory_lwalk _ _ _ H0 Hwf) as [m Hm].
  rewrite Hm in Hq. inversion Hq. now apply (Hn m es0).
Qed.

End TreeFacts.

(* ------------------------------------------------------------------ *)
(** ** Facts about the loop *)

Module ScanFacts.
Import Text Utf8 PurePath Exceptions FS Run Scan TextFacts NameFacts TreeFacts.
Local Open Scope string_scope.
Local Open Scope list_scope.

(** *** Projections of a log *)

Lemma printed_app (a b : trace) : printed (a ++ b) = (printed a ++ printed b)%list.
Proof.
  induction a as [|[p|p|p] a IH]; cbn; [reflexivity|assumption|assumption|].
  now rewrite IH.
Qed.

Lemma examined_app (a b : trace) :
  examined (a ++ b) = (examined a ++ examined b)%list.
Proof.
  induction a as [|[p|p|p] a IH]; cbn; [reflexivity| |assumption|assumption].
  now rewrite IH.
Qed.

Lemma string_app_nil_r (a : string) : (a ++ "" = a)%string.
Proof. induction a as [|x a IH]; cbn; [reflexivity | now rewrite IH]. Qed.

Lemma stdout_app (a b : trace) :
  stdout (a ++ b) = (stdout a ++ stdout b)%string.
Proof.
  induction a as [|[p|p|p] a IH]; cbn [app stdout];
    [reflexivity|assumption|assumption|].
  now rewrite IH, !string_append_assoc.
Qed.

Lemma printed_In (tr : trace) (p : Path) : In p (printed tr) <-> In (EvPrint p) tr.
Proof.
  induction tr as [|[q|q|q] tr IH]; cbn.
  - tauto.
  - rewrite IH. split; [auto | intros [H|H]; [discriminate | assumption]].
  - rewrite IH. split; [auto | intros [H|H]; [discriminate | assumption]].
  - rewrite IH. split; intros [H|H]; auto; [left; congruence | inversion H; auto].
Qed.

(** A log without a print accounts for no output. *)
Lemma stdout_nil (tr : trace) : (forall p, ~ In (EvPrint p) tr) -> stdout tr = "".
Proof.
  induction tr as [|[q|q|q] tr IH]; intros H; cbn [stdout];
    try reflexivity; try (apply IH; intros p Hp; apply (H p); now right).
  exfalso. apply (H q). now left.
Qed.

(** *** One iteration *)

Section WithWorld.
Variable w : world.

(** [read_text] raises nothing but [Exception]s. *)
Lemma read_text_raises_Exception (p : Path) (tr : trace) (e : exn) :
  fst (read_text w p tr) = inl e -> isinstance_Exception e = true.
Proof.
  unfold read_text, bind, emit, raise, ret, read_bytes.
  destruct (stat (root w) p) as [er|[[bs|er]|m es|tg|[bs|er]]]; cbn;
    try destruct (decode bs); cbn; intros H; inversion H; reflexivity.
Qed.

(** An iteration performs [visit_events] and ends as [visit_result]
    says. *)
Lemma visit_run (p : Path) (tr : trace) :
  visit w p tr
  = (visit_result w (printed tr) p, (tr ++ visit_events w (printed tr) p)%list).
Proof.
  assert (Hpr : printed ((tr ++ [EvStat p]) ++ [EvRead p]) = printed tr)
    by (rewrite !printed_app; cbn; now rewrite !app_nil_r).
  unfold visit, visit_result, visit_events, matching, stat_error, regular,
    flagged, is_file, read_text, print, try, bind, emit, raise, ret, read_bytes.
  generalize (in_skip (suffix p)). intros skipped.
  destruct (stat (root w) p) as [er|[[bs|er]|m es|tg|[bs|er]]]; cbn.
  - destruct (ignore_error er); cbn; reflexivity.
  - destruct skipped; cbn; [reflexivity|].
    destruct (decode bs) as [t|]; cbn; [|now rewrite <- !app_assoc].
    destruct (contains REPLACEMENT (translate_newlines t)); cbn;
      [|now rewrite <- !app_assoc].
    rewrite Hpr. destruct (console w (printed tr) p); cbn;
      now rewrite <- !app_assoc.
  - destruct skipped; cbn; [reflexivity | now rewrite <- !app_assoc].
  - reflexivity.
  - reflexivity.
  - reflexivity.
  - reflexivity.
Qed.

Lemma scan_run (ps : list Path) :
  forall tr : trace,
    scan w ps tr
    = (scan_result w (printed tr) ps, (tr ++ scan_events w (printed tr) ps)%list).
Proof.
  unfold scan. induction ps as [|p ps IH]; intros tr.
  - cbn. now rewrite app_nil_r.
  - cbn [for_each scan_events scan_result]. unfold bind. rewrite visit_run.
    destruct (visit_result w (printed tr) p) as [e|[]].
    + now rewrite app_nil_r.
    + rewrite IH, printed_app. now rewrite <- app_assoc.
Qed.

Lemma In_visit_events (h : list Path) (p : Path) (ev : event) :
  In ev (visit_events w h p) <->
  ev = EvStat p
  \/ (ev = EvRead p /\ regular w p = true /\ in_skip (suffix p) = false)
  \/ (ev = EvPrint p /\ matching w p = true /\ console w h p = None).
Proof.
  unfold visit_events, matching.
  destruct (regular w p), (in_skip (suffix p)), (flagged w p),
    (console w h p); cbn; intuition (try congruence; try discriminate).
Qed.

Lemma visit_events_path (h : list Path) (p : Path) (ev : event) :
  In ev (visit_events w h p) -> event_path ev = p.
Proof.
  intros H. apply In_visit_events in H.
  destruct H as [->|[[-> _]|[-> _]]]; reflexivity.
Qed.

Lemma examined_visit_events (h : list Path) (p : Path) :
  examined (visit_events w h p) = [p].
Proof.
  unfold visit_events.
  destruct (regular w p && negb (in_skip (suffix p))); [|reflexivity].
  destruct (flagged w p); [|reflexivity].
  destruct (console w h p); reflexivity.
Qed.

(** An iteration that ends normally prints the path exactly when the
    three tests pass. *)
Lemma printed_visit_events (h : list Path) (p : Path) :
  visit_result w h p = inr tt ->
  printed (visit_events w h p) = if matching w p then [p] else [].
Proof.
  unfold visit_result, visit_events, matching.
  destruct (stat_error w p); [discriminate|].
  destruct (regular w p && negb (in_skip (suffix p))); [|reflexivity].
  destruct (flagged w p); [|reflexivity]. cbn.
  destruct (console w h p); [discriminate | reflexivity].
Qed.

(** *** The loop *)

(** Every operation of the loop belongs to the iteration of an entry. *)
Lemma In_scan_events (ps : list Path) :
  forall (h : list Path) (ev : event),
    In ev (scan_events w h ps) ->
    exists h', In (event_path ev) ps /\ In ev (visit_events w h' (event_path ev)).
Proof.
  induction ps as [|p ps IH]; intros h ev H; [contradiction|].
  cbn [scan_events] in H. apply in_app_or in H. destruct H as [H|H].
  - pose proof (visit_events_path _ _ _ H) as Hp. rewrite Hp.
    exists h. split; [now left | assumption].
  - destruct (visit_result w h p); [contradiction|].
    destruct (IH _ _ H) as [h' [Hin Hev]]. exists h'. split; [now right | assumption].
Qed.

(** Once [is_file] has been called on an entry, everything its iteration
    does is in the log. *)
Lemma scan_events_visited (ps : list Path) :
  forall (h : list Path) (p : Path),
    In (EvStat p) (scan_events w h ps) ->
    exists h', incl (visit_events w h' p) (scan_events w h ps).
Proof.
  induction ps as [|p0 ps IH]; intros h p H; [contradiction|].
  cbn [scan_events] in *. apply in_app_or in H. destruct H as [H|H].
  - pose proof (visit_events_path _ _ _ H) as Hp. cbn in Hp. subst p0.
    exists h. apply incl_appl, incl_refl.
  - destruct (visit_result w h p0); [contradiction|].
    destruct (IH _ _ H) as [h' Hincl]. exists h'. now apply incl_appr.
Qed.

(** A print comes right after the query and the read of the same entry. *)
Lemma print_follows_read (ps : list Path) :
  forall (h : list Path) (l1 l2 : trace) (p : Path),
    scan_events w h ps = (l1 ++ EvPrint p :: l2)%list ->
    exists l0, l1 = (l0 ++ [EvStat p; EvRead p])%list.
Proof.
  induction ps as [|p0 ps IH]; intros h l1 l2 p H; cbn [scan_events] in H.
  - destruct l1; discriminate.
  - apply app_eq_app in H. destruct H as [l [[Hb Ht] | [Hb Ht]]].
    + (* the print is inside the block of [p0], or heads the rest *)
      destruct l as [|ev l].
      * rewrite app_nil_r in Hb. cbn in Ht.
        destruct (visit_result w h p0); [discriminate|].
        destruct (IH _ [] l2 p (eq_sym Ht)) as [l0 Hl0].
        destruct l0; discriminate.
      * cbn in Ht. inversion Ht; subst ev.
        unfold visit_events in Hb.
        destruct (regular w p0 && negb (in_skip (suffix p0)));
          [destruct (flagged w p0); [destruct (console w h p0)|]|];
          destruct l1 as [|a [|b [|c l1]]]; cbn in Hb; inversion Hb; subst;
          try (destruct l1; discriminate).
        exists []. reflexivity.
    + (* the print is in the rest *)
      destruct (visit_result w h p0); [destruct l; discriminate|].
      destruct (IH _ _ _ _ Ht) as [l0 Hl0]. subst l.
      exists (visit_events w h p0 ++ l0)%list.
      now rewrite Hb, app_assoc.
Qed.

(** The entries are examined in the order given, each once, up to the
    one whose iteration raises. *)
Lemma examined_scan_events (ps : list Path) :
  forall h : list Path,
    exists rest, ps = (examined (scan_events w h ps) ++ rest)%list.
Proof.
  induction ps as [|p ps IH]; intros h; [now exists []|].
  cbn [scan_events]. rewrite examined_app, examined_visit_events.
  destruct (visit_result w h p).
  - exists ps. reflexivity.
  - destruct (IH (h ++ printed (visit_events w h p))%list) as [rest Hr].
    exists rest. cbn [app]. f_equal. exact Hr.
Qed.

(** A loop that ends normally examined every entry and printed the
    matching ones. *)
Lemma scan_normal (ps : list Path) :
  forall h : list Path,
    scan_result w h ps = inr tt ->
    examined (scan_events w h ps) = ps
    /\ printed (scan_events w h ps) = filter (matching w) ps.
Proof.
  induction ps as [|p ps IH]; intros h H; [now split|].
  cbn [scan_events scan_result filter] in *.
  destruct (visit_result w h p) as [e|[]] eqn:Hv; [discriminate|].
  destruct (IH _ H) as [He Hp].
  rewrite examined_app, examined_visit_events, printed_app, He, Hp.
  rewrite (printed_visit_events _ _ Hv). split; [reflexivity|].
  now destruct (matching w p).
Qed.

End WithWorld.

(** *** The run *)

Lemma main_run (w : world) :
  main w []
  = (match scan_result w [] (enumerated w) with
     | inl e => inl e
     | inr _ =>
         match snd (rglob (recursion_limit w) (root w)) with
         | Some e => inl e
         | None => inr tt
         end
     end,
     scan_events w [] (enumerated w)).
Proof.
  unfold main, enumerated.
  destruct (rglob (recursion_limit w) (root w)) as [paths stopped].
  cbn [fst snd]. unfold bind. rewrite scan_run. cbn [printed app].
  destruct (scan_result w [] paths) as [e|[]]; [reflexivity|].
  destruct stopped; reflexivity.
Qed.

Lemma log_eq (w : world) : log w = scan_events w [] (enumerated w).
Proof. unfold log. now rewrite main_run. Qed.

(** A run ends normally only if the loop did, and the enumeration too. *)
Lemma outcome_normal (w : world) :
  outcome w = inr tt -> scan_result w [] (enumerated w) = inr tt.
Proof.
  unfold outcome. rewrite main_run. cbn [fst].
  destruct (scan_result w [] (enumerated w)) as [e|[]]; [discriminate|reflexivity].
Qed.

(** Each kind of event, read on the tree. *)
Lemma log_event (w : world) (ev : event) :
  In ev (log w) ->
  exists h, In (event_path ev) (enumerated w)
            /\ In ev (visit_events w h (event_path ev)).
Proof. rewrite log_eq. apply In_scan_events. Qed.

Lemma log_event_enumerated (w : world) (ev : event) :
  In ev (log w) -> In (event_path ev) (enumerated w).
Proof. intros H. destruct (log_event _ _ H) as [h [Hin _]]. exact Hin. Qed.

Lemma read_logged (w : world) (p : Path) :
  decoded w p ->
  In p (enumerated w) /\ regular w p = true /\ in_skip (suffix p) = false.
Proof.
  intros H. destruct (log_event _ _ H) as [h [Hin Hev]]. cbn in *.
  apply In_visit_events in Hev.
  destruct Hev as [Hev|[[_ Hev]|[Hev _]]]; try discriminate. now split.
Qed.

Lemma print_logged (w : world) (p : Path) :
  reported w p ->
  In p (enumerated w) /\ matching w p = true
  /\ exists h, console w h p = None.
Proof.
  intros H. destruct (log_event _ _ H) as [h [Hin Hev]]. cbn in *.
  apply In_visit_events in Hev.
  destruct Hev as [Hev|[[Hev _]|[_ [Hm Hc]]]]; try discriminate.
  split; [assumption|]. split; [assumption|]. now exists h.
Qed.

Lemma regular_stat (w : world) (p : Path) :
  regular w p = true <-> exists c, stat (root w) p = inr (Regular c).
Proof.
  unfold regular. split.
  - destruct (stat (root w) p) as [e|[c|m es|tg|c]]; try discriminate.
    intros _. now exists c.
  - intros [c ->]. reflexivity.
Qed.

Lemma flagged_bytes (w : world) (p : Path) (bs : list byte) :
  stat (root w) p = inr (Regular (Bytes bs)) ->
  flagged w p = match decode bs with
                | Some t => contains REPLACEMENT t
                | None => false
                end.
Proof.
  intros H. unfold flagged, read_bytes. rewrite H.
  destruct (decode bs); [apply contains_translate_newlines | reflexivity].
Qed.

Lemma matching_true (w : world) (p : Path) :
  matching w p = true <->
  in_skip (suffix p) = false
  /\ exists bs t, stat (root w) p = inr (Regular (Bytes bs))
                  /\ decode bs = Some t /\ In REPLACEMENT t.
Proof.
  unfold matching. rewrite !andb_true_iff, negb_true_iff. split.
  - intros [[Hreg Hskip] Hflag]. split; [assumption|].
    apply regular_stat in Hreg. destruct Hreg as [[bs|er] Hst].
    + rewrite (flagged_bytes _ _ _ Hst) in Hflag.
      destruct (decode bs) as [t|] eqn:Hd; [|discriminate].
      exists bs, t. repeat split; try assumption. now apply contains_In.
    + unfold flagged, read_bytes in Hflag. rewrite Hst in Hflag.
      discriminate.
  - intros (Hskip & bs & t & Hst & Hd & Ht). repeat split.
    + apply regular_stat. eauto.
    + assumption.
    + rewrite (flagged_bytes _ _ _ Hst), Hd. now apply contains_In.
Qed.

(** What a printed path satisfies: it was enumerated, it names a regular
    file, its suffix is outside the skip-set, and its bytes decode to a
    text holding U+FFFD. *)
Lemma reported_only_if (w : world) (p : Path) :
  reported w p ->
  In p (enumerated w) /\ in_skip (suffix p) = false
  /\ exists bs t, stat (root w) p = inr (Regular (Bytes bs))
                  /\ decode bs = Some t /\ In REPLACEMENT t.
Proof.
  intros H. apply print_logged in H. destruct H as (Hin & Hm & _).
  apply matching_true in Hm. tauto.
Qed.

(** What the iteration of an examined entry goes on to do. *)
Lemma visited_decoded (w : world) (p : Path) :
  visited w p -> regular w p = true -> in_skip (suffix p) = false ->
  decoded w p.
Proof.
  unfold visited, decoded. rewrite log_eq. intros H Hreg Hskip.
  destruct (scan_events_visited _ _ _ _ H) as [h Hincl]. apply Hincl.
  apply In_visit_events. right. left. now repeat split.
Qed.

Lemma visited_reported (w : world) (p : Path) :
  visited w p -> matching w p = true -> (forall h, console w h p = None) ->
  reported w p.
Proof.
  unfold visited, reported. rewrite log_eq. intros H Hm Hc.
  destruct (scan_events_visited _ _ _ _ H) as [h Hincl]. apply Hincl.
  apply In_visit_events. right. right. repeat split; auto.
Qed.

(** An event that is not a metadata query comes with a read. *)
Lemma log_event_cases (w : world) (ev : event) :
  In ev (log w) ->
  ev = EvStat (event_path ev) \/ In (EvRead (event_path ev)) (log w).
Proof.
  intros H. destruct ev as [p|p|p]; cbn; auto. right.
  assert (Hs : In (EvStat p) (log w)).
  { destruct (in_split _ _ H) as (l1 & l2 & Heq).
    pose proof Heq as Heq'. rewrite log_eq in Heq'.
    destruct (print_follows_read _ _ _ _ _ _ Heq') as [l0 ->].
    rewrite Heq. apply in_or_app. left. apply in_or_app. right. now left. }
  apply print_logged in H. destruct H as (_ & Hm & _).
  unfold matching in Hm. rewrite !andb_true_iff, negb_true_iff in Hm.
  destruct Hm as [[Hreg Hskip] _].
  now apply visited_decoded.
Qed.

(** Every operation is on an entry that the walk lists. *)
Lemma log_event_listed (w : world) (ev : event) :
  In ev (log w) -> listed (root w) (event_path ev).
Proof.
  intros H. apply log_event_enumerated in H. exact (rglob_listed _ _ _ H).
Qed.

(** The iteration on a readable regular file whose suffix is outside
    the skip-set, spelled out. *)
Lemma visit_regular_file (w : world) (p : Path) (bs : list byte) (tr : trace) :
  stat (root w) p = inr (Regular (Bytes bs)) ->
  in_skip (suffix p) = false ->
  visit w p tr
  = match decode bs with
    | Some t =>
        if contains REPLACEMENT t
        then match console w (printed tr) p with
             | None => (inr tt, tr ++ [EvStat p; EvRead p; EvPrint p])
             | Some e => (inl e, tr ++ [EvStat p; EvRead p])
             end
        else (inr tt, tr ++ [EvStat p; EvRead p])
    | None => (inr tt, tr ++ [EvStat p; EvRead p])
    end.
Proof.
  intros Hst Hskip. rewrite visit_run.
  unfold visit_result, visit_events, matching, stat_error.
  rewrite (flagged_bytes _ _ _ Hst).
  assert (Hreg : regular w p = true) by (apply regular_stat; eauto).
  rewrite Hreg, Hskip, Hst. cbn [andb negb].
  destruct (decode bs) as [t|]; [|reflexivity].
  destruct (contains REPLACEMENT t); [|reflexivity].
  destruct (console w (printed tr) p); reflexivity.
Qed.

(** The iteration on a file that cannot be read or decoded: the exception
    stays inside the [try]. *)
Lemma visit_read_error (w : world) (p : Path) (c : contents) (tr tr0 : trace) (e : exn) :
  stat (root w) p = inr (Regular c) ->
  fst (read_text w p tr0) = inl e ->
  visit w p tr
  = (inr tt,
     tr ++ EvStat p :: (if in_skip (suffix p) then [] else [EvRead p])).
Proof.
  intros Hst He. rewrite visit_run.
  assert (Hreg : regular w p = true) by (apply regular_stat; eauto).
  assert (Hfl : flagged w p = false).
  { revert He. unfold flagged, read_text, bind, emit, raise, ret.
    destruct (read_bytes w p) as [x|bs]; [reflexivity|].
    destruct (decode bs); [discriminate | reflexivity]. }
  unfold visit_result, visit_events, matching, stat_error.
  rewrite Hreg, Hfl, Hst, andb_false_r. cbn [andb].
  destruct (in_skip (suffix p)); reflexivity.
Qed.

Lemma not_matching_not_reported (w : world) (p : Path) :
  matching w p = false -> ~ reported w p.
Proof.
  intros Hm H. apply print_logged in H. destruct H as (_ & Hm' & _). congruence.
Qed.

(** An exception of [is_file] ends the run. *)
Lemma scan_stat_error (w : world) (p : Path) (e : errno) (ps : list Path) :
  forall h : list Path,
    In (EvStat p) (scan_events w h ps) ->
    stat_error w p = Some e ->
    scan_result w h ps = inl (OSError e).
Proof.
  induction ps as [|p0 ps IH]; intros h H He; [contradiction|].
  cbn [scan_events scan_result] in *. apply in_app_or in H.
  destruct H as [H|H].
  - pose proof (visit_events_path _ _ _ _ H) as Hp. cbn in Hp. subst p0.
    unfold visit_result. now rewrite He.
  - destruct (visit_result w h p0); [contradiction|]. now apply IH.
Qed.

(** The entries examined are the enumerated ones that no raising
    iteration comes before. *)
Lemma scan_events_reached (w : world) (p : Path) (ps : list Path) :
  forall h : list Path,
    In (EvStat p) (scan_events w h ps) <->
    exists ps1 ps2, ps = ps1 ++ p :: ps2 /\ scan_result w h ps1 = inr tt.
Proof.
  induction ps as [|p0 ps IH]; intros h.
  - split; [contradiction|]. intros (ps1 & ps2 & E & _).
    destruct ps1; discriminate.
  - cbn [scan_events]. rewrite in_app_iff. split.
    + intros [H|H].
      * pose proof (visit_events_path _ _ _ _ H) as Hp. cbn in Hp. subst p0.
        now exists [], ps.
      * destruct (visit_result w h p0) as [e|[]] eqn:Hv; [contradiction|].
        apply IH in H. destruct H as (ps1 & ps2 & -> & Hr).
        exists (p0 :: ps1), ps2. split; [reflexivity|].
        cbn [scan_result]. now rewrite Hv.
    + intros (ps1 & ps2 & E & Hr). destruct ps1 as [|q ps1].
      * cbn in E. inversion E; subst. left. apply In_visit_events. now left.
      * cbn in E. inversion E; subst. cbn [scan_result] in Hr.
        destruct (visit_result w h q) as [e|[]]; [discriminate|].
        right. apply IH. now exists ps1, ps2.
Qed.


(** A file whose read raises passes for a file without U+FFFD. *)
Lemma read_error_not_flagged (w : world) (p : Path) (tr : trace) (e : exn) :
  fst (read_text w p tr) = inl e -> flagged w p = false.
Proof.
  unfold flagged, read_text, bind, emit, raise, ret.
  destruct (read_bytes w p) as [x|bs]; [reflexivity|].
  destruct (decode bs); [discriminate | reflexivity].
Qed.

(** An exception of [print] ends the run. *)
Lemma scan_print_error (w : world) (p : Path) (e : exn) (ps : list Path) :
  forall h : list Path,
    In (EvStat p) (scan_events w h ps) ->
    matching w p = true ->
    (forall h', console w h' p = Some e) ->
    scan_result w h ps = inl e /\ ~ In (EvPrint p) (scan_events w h ps).
Proof.
  induction ps as [|p0 ps IH]; intros h H Hm Hc; [contradiction|].
  cbn [scan_events scan_result] in *. apply in_app_or in H.
  assert (Hhere : p0 = p ->
            visit_result w h p0 = inl e
            /\ ~ In (EvPrint p) (visit_events w h p0)).
  { intros ->. split.
    - unfold visit_result. rewrite Hm, Hc.
      unfold matching in Hm. unfold stat_error.
      destruct (stat (root w) p) as [x|n] eqn:Hst; [|reflexivity].
      unfold regular in Hm. rewrite Hst in Hm. discriminate.
    - intros Hin. apply In_visit_events in Hin.
      destruct Hin as [Hin|[[Hin _]|[_ [_ Hin]]]]; try discriminate.
      rewrite Hc in Hin. discriminate. }
  destruct H as [H|H].
  - pose proof (visit_events_path _ _ _ _ H) as Hp. cbn in Hp.
    destruct (Hhere (eq_sym Hp)) as [Hr Hn]. rewrite Hr. split; [reflexivity|].
    rewrite app_nil_r. exact Hn.
  - destruct (visit_result w h p0) as [x|[]] eqn:Hv; [contradiction|].
    destruct (IH _ H Hm Hc) as [Hr Hn]. split; [exact Hr|].
    intros Hin. apply in_app_or in Hin. destruct Hin as [Hin|Hin]; [|auto].
    pose proof (visit_events_path _ _ _ _ Hin) as Hp. cbn in Hp.
    destruct (Hhere (eq_sym Hp)) as [Hr' _]. congruence.
Qed.

(** The text a log accounts for is that of its prints. *)
Lemma stdout_printed (tr : trace) : stdout tr = stdout (map EvPrint (printed tr)).
Proof.
  induction tr as [|[p|p|p] tr IH]; cbn [printed map stdout];
    [reflexivity|assumption|assumption|].
  now rewrite IH.
Qed.


End ScanFacts.

(* ------------------------------------------------------------------ *)
(** ** The claims of the specification *)

Module Spec.
Import Text Utf8 PurePath Exceptions FS Run Scan Examples.
Import TextFacts SuffixFacts NameFacts ScanFacts.
Local Open Scope string_scope.

(** Refuting membership in a concrete log. *)
Ltac absent H :=
  vm_compute in H; repeat (destruct H as [H|H]; [discriminate H|]); exact H.

(** C1, as the specification words it, fails: with [bad.txt] holding the
    bytes FF FE as the only entry, the file is enumerated, is regular and
    has a suffix outside the skip-set, yet the strict decode raises, the
    run ends normally, the path is not printed and nothing is written. *)
Lemma bad_txt_not_reported :
  In ["bad.txt"] (enumerated bad_world)
  /\ stat (root bad_world) ["bad.txt"] = inr (Regular (Bytes [xff; xfe]))
  /\ in_skip (suffix ["bad.txt"]) = false
  /\ fst (read_text bad_world ["bad.txt"] []) = inl UnicodeDecodeError
  /\ outcome bad_world = inr tt
  /\ ~ reported bad_world ["bad.txt"]
  /\ output bad_world = "".
Proof.
  split; [left; reflexivity|]. split; [reflexivity|]. split; [reflexivity|].
  split; [reflexivity|]. split; [reflexivity|]. split; [|reflexivity].
  intros H. unfold reported in H. absent H.
Qed.

(** C1, amended: a file whose bytes are FF FE is never reported.  The
    decode is strict: reading the file raises [UnicodeDecodeError], and
    the iteration on it, when the suffix is outside the skip-set, ends
    without an exception and without a print. *)
Theorem invalid_bytes_never_reported :
  forall (w : world) (p : Path),
    stat (root w) p = inr (Regular (Bytes [xff; xfe])) ->
    (forall tr, fst (read_text w p tr) = inl UnicodeDecodeError)
    /\ (in_skip (suffix p) = false ->
        forall tr, visit w p tr = (inr tt, tr ++ [EvStat p; EvRead p])%list)
    /\ ~ reported w p.
Proof.
  intros w p Hst. split; [|split].
  - intros tr. unfold read_text, bind, emit, raise, ret, read_bytes.
    rewrite Hst. reflexivity.
  - intros Hskip tr. rewrite (visit_regular_file _ _ _ _ Hst Hskip).
    now rewrite decode_FF_FE.
  - intros H. apply reported_only_if in H.
    destruct H as (_ & _ & bs & t & Hst' & Hd & _).
    rewrite Hst in Hst'. inversion Hst'; subst bs.
    rewrite decode_FF_FE in Hd. discriminate.
Qed.

Lemma invalid_bytes_never_reported_witness :
  fst (read_text sample_world ["bad.txt"] []) = inl UnicodeDecodeError
  /\ visit sample_world ["bad.txt"] []
     = (inr tt, [EvStat ["bad.txt"]; EvRead ["bad.txt"]])
  /\ ~ reported sample_world ["bad.txt"].
Proof.
  pose proof (invalid_bytes_never_reported sample_world ["bad.txt"] eq_refl)
    as (H1 & H2 & H3).
  split; [exact (H1 [])|]. split; [exact (H2 eq_refl [])|]. exact H3.
Defined.

(** C2, as the specification words it, fails: a regular file under the
    root, with a suffix outside the skip-set and bytes that decode to a
    text holding U+FFFD, lies in a directory that may be searched but
    not listed.  [rglob] passes over the directory in silence, the run
    ends normally, and the path is not printed. *)
Lemma file_in_unlistable_directory_not_reported :
  stat (root locked_world) ["locked"; "rep.txt"]
  = inr (Regular (Bytes [xef; xbf; xbd]))
  /\ in_skip (suffix ["locked"; "rep.txt"]) = false
  /\ decode [xef; xbf; xbd] = Some [REPLACEMENT]
  /\ In REPLACEMENT [REPLACEMENT]
  /\ enumerated locked_world = [["locked"]]
  /\ outcome locked_world = inr tt
  /\ ~ reported locked_world ["locked"; "rep.txt"]
  /\ output locked_world = "".
Proof.
  split; [reflexivity|]. split; [reflexivity|]. split; [reflexivity|].
  split; [now left|]. split; [reflexivity|]. split; [reflexivity|].
  split; [|reflexivity].
  intros H. unfold reported in H. absent H.
Qed.

(** C2, amended: for a regular file whose suffix is outside the
    skip-set.  If the bytes decode as UTF-8, the path is printed only if
    the decoded text holds U+FFFD; when the loop reaches the file and
    writing its line raises nothing, it is printed exactly when the text
    holds U+FFFD; and the iteration on it, when the write raises nothing,
    ends normally having added to standard output the path and an end of
    line, or nothing.  If the decode fails, the path is not printed and
    the iteration ends normally after the read. *)
Theorem report_condition :
  forall (w : world) (p : Path) (bs : list byte),
    stat (root w) p = inr (Regular (Bytes bs)) ->
    in_skip (suffix p) = false ->
    match decode bs with
    | Some t =>
        (reported w p -> In REPLACEMENT t)
        /\ (visited w p -> (forall h, console w h p = None) ->
            (reported w p <-> In REPLACEMENT t))
        /\ (forall tr, console w (printed tr) p = None ->
              fst (visit w p tr) = inr tt
              /\ stdout (snd (visit w p tr))
                 = stdout tr ++ (if contains REPLACEMENT t
                                 then str p ++ NL else ""))
    | None =>
        ~ reported w p
        /\ forall tr, visit w p tr = (inr tt, tr ++ [EvStat p; EvRead p])%list
    end.
Proof.
  intros w p bs Hst Hskip.
  destruct (decode bs) as [t|] eqn:Hd.
  - assert (Honly : reported w p -> In REPLACEMENT t).
    { intros H. apply reported_only_if in H.
      destruct H as (_ & _ & bs' & t' & Hst' & Hd' & Ht').
      rewrite Hst in Hst'. inversion Hst'; subst bs'.
      rewrite Hd in Hd'. inversion Hd'; now subst t'. }
    split; [exact Honly|]. split.
    + intros Hv Hc. split; [exact Honly|]. intros Ht.
      apply visited_reported; try assumption.
      apply matching_true. split; [assumption|]. now exists bs, t.
    + intros tr Hc. rewrite (visit_regular_file _ _ _ _ Hst Hskip), Hd, Hc.
      destruct (contains REPLACEMENT t); cbn [fst snd];
        (split; [reflexivity|]); rewrite stdout_app; cbn [stdout].
      * now rewrite !string_app_nil_r.
      * reflexivity.
  - split.
    + intros H. apply reported_only_if in H.
      destruct H as (_ & _ & bs' & t' & Hst' & Hd' & _).
      rewrite Hst in Hst'. inversion Hst'; subst bs'. congruence.
    + intros tr. now rewrite (visit_regular_file _ _ _ _ Hst Hskip), Hd.
Qed.

Lemma report_condition_witness :
  (reported sample_world ["sub"; "deep"; "er"; "z.txt"]
   /\ stdout (snd (visit sample_world ["sub"; "deep"; "er"; "z.txt"] []))
      = String.append "sub/deep/er/z.txt" (String "010" ""))
  /\ (~ reported sample_world ["good.txt"]
      /\ stdout (snd (visit sample_world ["good.txt"] [])) = "")
  /\ (~ reported sample_world ["bad.txt"]
      /\ visit sample_world ["bad.txt"] []
         = (inr tt, [EvStat ["bad.txt"]; EvRead ["bad.txt"]])).
Proof.
  pose proof (report_condition sample_world ["sub"; "deep"; "er"; "z.txt"]
                replacement_bytes eq_refl eq_refl) as (_ & H1 & T1).
  pose proof (report_condition sample_world ["good.txt"]
                hello_bytes eq_refl eq_refl) as (G1 & _ & G2).
  pose proof (report_condition sample_world ["bad.txt"]
                invalid_bytes eq_refl eq_refl) as (B1 & B2).
  split; [|split].
  - split.
    + apply (H1 ltac:(enumerated) ltac:(intros h; reflexivity)).
      left. reflexivity.
    + exact (proj2 (T1 [] eq_refl)).
  - split.
    + intros H. apply G1 in H. absent H.
    + exact (proj2 (G2 [] eq_refl)).
  - split; [exact B1 | exact (B2 [])].
Defined.

(** C3 fails on the code.  Only [read_text] is inside the [try] of
    lines 5-8; [is_file] (line 4) and [print] (line 10) are outside it.
    In [nosearch_tree] the directory [nosearch] may be listed but not
    searched, so the metadata query on [nosearch/f.txt] is refused:
    [is_file] raises [PermissionError], nothing catches it, the run ends
    with that exception, and [later/z.txt], enumerated after it and
    meeting the report condition, is never examined.  In [names_tree] the
    name FF [.txt] cannot be written to a UTF-8 standard output: [print]
    raises [UnicodeEncodeError], the run ends with it, and [z.txt] is never
    examined. *)
Theorem uncaught_errors_end_the_run :
  (enumerated nosearch_world
   = [["nosearch"]; ["later"]; ["nosearch"; "f.txt"]; ["later"; "z.txt"]]
   /\ stat (root nosearch_world) ["nosearch"; "f.txt"] = inl EACCES
   /\ fst (is_file nosearch_world ["nosearch"; "f.txt"] [])
      = inl (OSError EACCES)
   /\ outcome nosearch_world = inl (OSError EACCES)
   /\ log nosearch_world
      = [EvStat ["nosearch"]; EvStat ["later"]; EvStat ["nosearch"; "f.txt"]]
   /\ matching nosearch_world ["later"; "z.txt"] = true
   /\ ~ visited nosearch_world ["later"; "z.txt"]
   /\ output nosearch_world = "")
  /\ (enumerated names_world = [["a.txt"]; [raw_name]; ["z.txt"]]
      /\ matching names_world [raw_name] = true
      /\ console names_world [["a.txt"]] [raw_name] = Some UnicodeEncodeError
      /\ outcome names_world = inl UnicodeEncodeError
      /\ matching names_world ["z.txt"] = true
      /\ ~ visited names_world ["z.txt"]
      /\ output names_world = String.append "a.txt" (String "010" "")).
Proof.
  split.
  - split; [reflexivity|]. split; [reflexivity|]. split; [reflexivity|].
    split; [reflexivity|]. split; [reflexivity|]. split; [reflexivity|].
    split; [|reflexivity].
    intros H. unfold visited in H. absent H.
  - split; [reflexivity|]. split; [reflexivity|]. split; [reflexivity|].
    split; [reflexivity|]. split; [reflexivity|]. split; [|reflexivity].
    intros H. unfold visited in H. absent H.
Qed.

(** C4: a file whose suffix, compared as it is, is one of the ten
    strings of the skip-set is never reported, whatever the tree holds
    for it. *)
Theorem skip_set_never_reported :
  forall (w : world) (p : Path),
    In (suffix p)
       [".png"; ".jpg"; ".jpeg"; ".gif"; ".pdf"; ".zip"; ".ico"; ".woff";
        ".woff2"; ".ttf"] ->
    ~ reported w p.
Proof.
  intros w p Hin H. apply reported_only_if in H.
  destruct H as (_ & Hskip & _).
  assert (Ht : in_skip (suffix p) = true).
  { unfold in_skip. apply existsb_exists. exists (suffix p).
    split; [exact Hin | apply String.eqb_refl]. }
  congruence.
Qed.

Lemma skip_set_never_reported_witness :
  stat (root sample_world) ["logo.png"] = inr (Regular (Bytes [xef; xbf; xbd]))
  /\ ~ reported sample_world ["logo.png"]
  /\ ~ reported sample_world ["a.txt.png"].
Proof.
  split; [reflexivity|]. split.
  - exact (skip_set_never_reported sample_world ["logo.png"]
             ltac:(enumerated)).
  - exact (skip_set_never_reported sample_world ["a.txt.png"]
             ltac:(enumerated)).
Defined.

(** C5: a file whose bytes are well-formed UTF-8 and whose decoded text
    holds no U+FFFD is never reported. *)
Theorem clean_text_never_reported :
  forall (w : world) (p : Path) (bs : list byte) (t : text),
    stat (root w) p = inr (Regular (Bytes bs)) ->
    decode bs = Some t ->
    ~ In REPLACEMENT t ->
    ~ reported w p.
Proof.
  intros w p bs t Hst Hd Hclean H. apply reported_only_if in H.
  destruct H as (_ & _ & bs' & t' & Hst' & Hd' & Ht').
  rewrite Hst in Hst'. inversion Hst'; subst bs'.
  rewrite Hd in Hd'. inversion Hd'; subst t'. now apply Hclean.
Qed.

Lemma clean_text_never_reported_witness :
  stat (root sample_world) ["good.txt"]
  = inr (Regular (Bytes (bytes_of_string "hello world")))
  /\ ~ reported sample_world ["good.txt"].
Proof.
  split; [reflexivity|].
  refine (clean_text_never_reported sample_world ["good.txt"]
            hello_bytes _ eq_refl decode_hello_world _).
  cbn. intros H.
  repeat (destruct H as [H|H]; [discriminate H|]). exact H.
Defined.



(** No path of a tree of nested directories names a regular file. *)
Lemma walk_chain (p : Path) :
  forall n : nat,
    (exists k, walk (chain n) p = inr (chain k))
    \/ walk (chain n) p = inl ENOENT.
Proof.
  induction p as [|nm p IH]; intros n; [left; now exists n|].
  destruct n as [|n]; cbn [walk chain resolve search_error rwx find_entry];
    [now right|].
  destruct (String.eqb nm "d"); [apply IH | now right].
Qed.

Lemma stat_chain (n : nat) (p : Path) (c : contents) :
  stat (chain n) p <> inr (Regular c).
Proof.
  unfold stat. destruct (walk_chain p n) as [[k ->]| ->]; [|discriminate].
  destruct k; discriminate.
Qed.

(** C7, as the specification words it, fails: a root that holds no file
    at all, only directories nested deeper than the walk of [rglob] may
    recurse, gives no output, but the run ends with [RecursionError], not
    normally. *)
Lemma no_file_yet_an_exception :
  (forall p c, stat (root nested_world) p <> inr (Regular c))
  /\ (forall p, matching nested_world p = false)
  /\ output nested_world = ""
  /\ outcome nested_world = inl RecursionError.
Proof.
  split; [intros p c; apply stat_chain|].
  split; [|split; vm_compute; reflexivity].
  intros p. unfold matching, regular.
  destruct (stat (root nested_world) p) as [e|[c|m es|t|c]] eqn:E;
    try reflexivity.
  exfalso. exact (stat_chain _ _ _ E).
Qed.

(** C7, amended: when no enumerated file meets the report condition, and
    so in particular when the root holds no file at all, no line is
    written; and the run ends normally when moreover the walk of [rglob]
    raises nothing and [is_file] raises on no enumerated entry. *)
Theorem no_match_no_output :
  forall (w : world),
    (forall p bs t,
        In p (enumerated w) ->
        stat (root w) p = inr (Regular (Bytes bs)) ->
        in_skip (suffix p) = false ->
        decode bs = Some t ->
        ~ In REPLACEMENT t) ->
    output w = ""
    /\ (snd (rglob (recursion_limit w) (root w)) = None ->
        (forall p e, In p (enumerated w) -> stat (root w) p = inl e ->
                     ignore_error e = true) ->
        outcome w = inr tt).
Proof.
  intros w Hnone.
  assert (Hm : forall p, In p (enumerated w) -> matching w p = false).
  { intros p Hin. destruct (matching w p) eqn:E; [|reflexivity].
    apply matching_true in E. destruct E as (Hskip & bs & t & Hst & Hd & Ht).
    exfalso. exact (Hnone p bs t Hin Hst Hskip Hd Ht). }
  split.
  - apply stdout_nil. intros p H. apply print_logged in H.
    destruct H as (Hin & Hmatch & _). rewrite (Hm p Hin) in Hmatch.
    discriminate.
  - intros Hwalk Hstat. unfold outcome. rewrite main_run, Hwalk. cbn [fst].
    assert (Hscan : forall ps h,
               (forall p, In p ps -> In p (enumerated w)) ->
               scan_result w h ps = inr tt).
    { induction ps as [|q ps IH]; intros h Hsub; [reflexivity|].
      cbn [scan_result].
      assert (Hq : In q (enumerated w)) by (apply Hsub; now left).
      assert (Hv : visit_result w h q = inr tt).
      { unfold visit_result, stat_error. rewrite (Hm q Hq).
        destruct (stat (root w) q) as [e|n] eqn:E; [|reflexivity].
        now rewrite (Hstat q e Hq E). }
      rewrite Hv. apply IH. intros p Hp. apply Hsub. now right. }
    now rewrite (Hscan (enumerated w) [] (fun p Hp => Hp)).
Qed.

Lemma no_match_no_output_witness :
  (output empty_world = "" /\ outcome empty_world = inr tt)
  /\ (output quiet_world = "" /\ outcome quiet_world = inr tt).
Proof.
  split.
  - destruct (no_match_no_output empty_world) as [H1 H2].
    + intros p bs t [].
    + split; [exact H1|]. apply H2; [reflexivity|]. intros p e [].
  - destruct (no_match_no_output quiet_world) as [H1 H2].
    + intros p bs t Hin Hst Hskip Hd.
      vm_compute in Hin.
      destruct Hin as [<-|[<-|[<-|[<-|[]]]]];
        try discriminate Hskip; try discriminate Hst;
        injection Hst as <-; try discriminate Hd;
        injection Hd as <-; cbn; intros H;
        repeat (destruct H as [H|H]; [discriminate H|]); exact H.
    + split; [exact H1|]. apply H2; [reflexivity|].
      intros p e Hin Hst. vm_compute in Hin.
      destruct Hin as [<-|[<-|[<-|[<-|[]]]]]; discriminate Hst.
Defined.







(** C10: the content of an enumerated entry that is not a regular file,
    or whose suffix is in the skip-set, is never read: the only
    operation the run performs on it is the metadata query of
    [is_file]. *)
Theorem unread_unless_regular_and_not_skipped :
  forall (w : world) (p : Path),
    In p (enumerated w) ->
    (forall c, stat (root w) p <> inr (Regular c)) \/ In (suffix p) SKIP ->
    ~ decoded w p
    /\ (forall ev, In ev (log w) -> event_path ev = p -> ev = EvStat p).
Proof.
  intros w p _ Hguard.
  assert (Hno : ~ decoded w p).
  { intros H. apply read_logged in H. destruct H as (_ & Hreg & Hskip).
    destruct Hguard as [Hnr | Hsk].
    - apply regular_stat in Hreg. destruct Hreg as [c Hc].
      exact (Hnr c Hc).
    - assert (Ht : in_skip (suffix p) = true).
      { unfold in_skip. apply existsb_exists. exists (suffix p).
        split; [exact Hsk | apply String.eqb_refl]. }
      congruence. }
  split; [exact Hno|].
  intros ev Hev Hp. destruct (log_event_cases _ _ Hev) as [H|H].
  - now rewrite Hp in H.
  - rewrite Hp in H. contradiction.
Qed.

Lemma unread_unless_regular_and_not_skipped_witness :
  (~ decoded sample_world ["logo.png"]
   /\ (forall ev, In ev (log sample_world) -> event_path ev = ["logo.png"] ->
                  ev = EvStat ["logo.png"]))
  /\ (~ decoded sample_world ["null"]
      /\ (forall ev, In ev (log sample_world) -> event_path ev = ["null"] ->
                     ev = EvStat ["null"])).
Proof.
  split.
  - apply (unread_unless_regular_and_not_skipped sample_world ["logo.png"]);
      [enumerated | right; enumerated].
  - apply (unread_unless_regular_and_not_skipped sample_world ["null"]);
      [enumerated | left; intros c; discriminate].
Defined.

End Spec.

(* ------------------------------------------------------------------ *)
(** ** Further properties of the script *)

Module Extra.
Import Text Utf8 PurePath Exceptions FS Run Scan Examples.
Import TextFacts SuffixFacts NameFacts DecodeFacts TreeFacts ScanFacts.
Local Open Scope string_scope.

(** X1: every operation of a run, a metadata query, a read or a print,
    is on an entry of the root directory or of a directory below it that
    is reached through directories alone, never through a link, each of
    which may be listed and searched, and that may itself be listed.
    Neither the root itself, nor what lies behind a link, nor what a
    directory closed to listing holds is touched. *)
Theorem operations_only_on_listed_entries :
  forall (w : world) (ev : event),
    In ev (log w) -> listed (root w) (event_path ev).
Proof.
  intros w ev H. apply log_event_enumerated in H.
  exact (rglob_listed _ _ _ H).
Qed.

Lemma operations_only_on_listed_entries_witness :
  listed (root sample_world) ["sub"; "deep"; "er"; "z.txt"].
Proof.
  exact (operations_only_on_listed_entries sample_world
           (EvPrint ["sub"; "deep"; "er"; "z.txt"]) ltac:(enumerated)).
Defined.

(** X2: what a printed path satisfies.  It is an entry of a directory
    that the walk lists, its suffix is outside the skip-set, it names,
    links followed, a readable regular file, and the bytes of that file
    are well-formed UTF-8 holding the three bytes EF BF BD somewhere. *)
Theorem reported_only_when :
  forall (w : world) (p : Path),
    reported w p ->
    listed (root w) p
    /\ in_skip (suffix p) = false
    /\ exists bs,
        stat (root w) p = inr (Regular (Bytes bs))
        /\ (exists t, decode bs = Some t)
        /\ exists pre post, bs = (pre ++ [xef; xbf; xbd] ++ post)%list.
Proof.
  intros w p H. pose proof (log_event_listed w _ H) as Hl.
  apply reported_only_if in H.
  destruct H as (_ & Hs & bs & t & Hst & Hd & Ht).
  split; [exact Hl|]. split; [exact Hs|].
  exists bs. split; [exact Hst|]. split; [now exists t|].
  apply decode_Decodes in Hd. exact (Decodes_REPLACEMENT_bytes _ _ Hd Ht).
Qed.

Lemma reported_only_when_witness :
  listed (root sample_world) ["filelink"]
  /\ in_skip (suffix ["filelink"]) = false
  /\ exists bs,
      stat (root sample_world) ["filelink"] = inr (Regular (Bytes bs))
      /\ (exists t, decode bs = Some t)
      /\ exists pre post, bs = (pre ++ [xef; xbf; xbd] ++ post)%list.
Proof.
  exact (reported_only_when sample_world ["filelink"] ltac:(enumerated)).
Defined.

(** X3: under a well-formed root, nothing is examined, read or printed
    below a path that names anything but a directory itself; in
    particular the entries of a directory reached through a symbolic link
    are left alone, whatever they hold. *)
Theorem nothing_done_below_a_link :
  forall (w : world) (q rest : Path) (n : node),
    well_formed (root w) = true ->
    lwalk (root w) q = Some n ->
    (forall m es, n <> Directory m es) ->
    rest <> [] ->
    forall ev, In ev (log w) -> event_path ev <> (q ++ rest)%list.
Proof.
  intros w q rest n Hwf Hq Hn Hrest ev Hev Hp.
  apply log_event_enumerated in Hev. rewrite Hp in Hev.
  apply rglob_listed in Hev.
  exact (not_listed_below _ _ _ _ Hwf Hq Hn Hrest Hev).
Qed.

Lemma nothing_done_below_a_link_witness :
  lwalk (root sample_world) ["dirlink"]
  = Some (Symlink (inr (Directory rwx
                          [("in.txt", Regular (Bytes [xef; xbf; xbd]))])))
  /\ forall ev, In ev (log sample_world) ->
                event_path ev <> ["dirlink"; "in.txt"].
Proof.
  split; [reflexivity|].
  exact (nothing_done_below_a_link sample_world ["dirlink"] ["in.txt"] _
           eq_refl eq_refl ltac:(intros m es; discriminate)
           ltac:(discriminate)).
Defined.

(** X5: [is_file] is consulted on the enumerated entries in the order of
    the enumeration, once for each, up to the entry at which an
    exception ends the run; a run that ends normally has consulted it on
    every enumerated entry. *)
Theorem examined_in_order_until_an_exception :
  forall (w : world),
    (exists rest, enumerated w = (examined (log w) ++ rest)%list)
    /\ (outcome w = inr tt -> examined (log w) = enumerated w).
Proof.
  intros w. rewrite log_eq. split.
  - apply examined_scan_events.
  - intros H. apply outcome_normal in H.
    exact (proj1 (scan_normal _ _ _ H)).
Qed.

Lemma examined_in_order_until_an_exception_witness :
  enumerated nosearch_world
  = ([["nosearch"]; ["later"]; ["nosearch"; "f.txt"]] ++ [["later"; "z.txt"]])%list
  /\ examined (log sample_world) = enumerated sample_world.
Proof.
  split.
  - destruct (examined_in_order_until_an_exception nosearch_world)
      as [[rest H] _].
    vm_compute in H. injection H as <-. reflexivity.
  - exact (proj2 (examined_in_order_until_an_exception sample_world) eq_refl).
Defined.

(** X6: a run that ends normally has printed the enumerated entries that
    pass the three tests of the loop body, in the order of the
    enumeration, and standard output holds, for each, the path and an end
    of line. *)
Theorem normal_run_prints_the_matching_entries :
  forall (w : world),
    outcome w = inr tt ->
    printed (log w) = filter (matching w) (enumerated w)
    /\ output w = stdout (map EvPrint (filter (matching w) (enumerated w))).
Proof.
  intros w H. apply outcome_normal in H.
  destruct (scan_normal _ _ _ H) as [_ Hp].
  unfold output. rewrite stdout_printed, log_eq, Hp. now split.
Qed.

Lemma normal_run_prints_the_matching_entries_witness :
  printed (log sample_world)
  = [["rep.txt"]; ["LOGO.PNG"]; [".png"]; ["a.png.txt"]; ["filelink"];
     ["sub"; "deep"; "er"; "z.txt"]]
  /\ output sample_world
     = String.concat (String "010" "")
         ["rep.txt"; "LOGO.PNG"; ".png"; "a.png.txt"; "filelink";
          "sub/deep/er/z.txt"; ""].
Proof.
  destruct (normal_run_prints_the_matching_entries sample_world eq_refl)
    as [H1 H2].
  split; [rewrite H1 | rewrite H2]; reflexivity.
Defined.

(** X7: a path is printed right after the read of that same file, which
    comes right after the [is_file] query on it: nothing is printed that
    was not read in the same iteration. *)
Theorem print_right_after_read :
  forall (w : world) (l1 l2 : trace) (p : Path),
    log w = (l1 ++ EvPrint p :: l2)%list ->
    exists l0, l1 = (l0 ++ [EvStat p; EvRead p])%list.
Proof.
  intros w l1 l2 p H. rewrite log_eq in H.
  exact (print_follows_read _ _ _ _ _ _ H).
Qed.

Lemma print_right_after_read_witness :
  exists l0,
    firstn 4 (log sample_world)
    = (l0 ++ [EvStat ["rep.txt"]; EvRead ["rep.txt"]])%list.
Proof.
  exact (print_right_after_read sample_world
           (firstn 4 (log sample_world)) (skipn 5 (log sample_world))
           ["rep.txt"] eq_refl).
Defined.

(** X11: a file is skipped on its name exactly when the name is a
    non-empty stem followed by one of the ten extensions; a name that is
    only the extension, or that carries anything after it, is not
    skipped. *)
Theorem skipped_exactly_when_name_ends_in_extension :
  forall (p : Path),
    in_skip (suffix p) = true <->
    exists stem ext,
      name p = stem ++ ext /\ stem <> "" /\ In ext SKIP.
Proof.
  intros p. unfold suffix. rewrite in_skip_In. split.
  - intros Hin.
    assert (Hne : suffix_of_name (name p) <> "").
    { intros E. rewrite E in Hin. unfold SKIP in Hin. cbn in Hin.
      intuition discriminate. }
    destruct (suffix_of_name_shape _ Hne) as (stem & ext & Hn & Hs & _ & _ & E).
    exists stem, (String "." ext). rewrite E in Hin.
    split; [exact Hn | split; [exact Hs | exact Hin]].
  - intros (stem & ext & Hn & Hs & Hin).
    destruct (SKIP_shape _ Hin) as (e & -> & He & Hd).
    rewrite Hn, (suffix_of_name_final stem e Hs He Hd). exact Hin.
Qed.

(** X12: a non-empty suffix is the last dot of the name with everything
    after it; there is at least one character after that dot and at least
    one before it. *)
Theorem suffix_is_last_dot_onwards :
  forall (p : Path),
    suffix p <> "" ->
    exists stem ext,
      name p = stem ++ suffix p
      /\ suffix p = String "." ext
      /\ stem <> "" /\ ext <> "" /\ rfind "." ext = (-1)%Z.
Proof.
  intros p Hne. unfold suffix in *.
  destruct (suffix_of_name_shape _ Hne) as (stem & ext & Hn & Hs & He & Hd & E).
  exists stem, ext. rewrite E. now repeat split.
Qed.

Lemma suffix_is_last_dot_onwards_witness :
  exists stem ext,
    name ["sub"; "archive.tar.gz"] = stem ++ suffix ["sub"; "archive.tar.gz"]
    /\ suffix ["sub"; "archive.tar.gz"] = String "." ext
    /\ stem <> "" /\ ext <> "" /\ rfind "." ext = (-1)%Z.
Proof.
  exact (suffix_is_last_dot_onwards ["sub"; "archive.tar.gz"]
           ltac:(discriminate)).
Defined.

(** X13: a file holding one of the bytes that no UTF-8 text holds (C0, C1,
    F5..FF) does not decode and is never reported, whatever else it
    holds. *)
Theorem impossible_byte_never_reported :
  forall (w : world) (p : Path) (bs : list byte) (b : byte),
    stat (root w) p = inr (Regular (Bytes bs)) ->
    In b bs ->
    (val b = 0xC0 \/ val b = 0xC1 \/ 0xF5 <= val b)%N ->
    decode bs = None /\ ~ reported w p.
Proof.
  intros w p bs b Hst Hb Hv.
  assert (Hd : decode bs = None).
  { destruct (decode bs) as [t|] eqn:Hd; [|reflexivity].
    apply decode_Decodes, Decodes_possible_bytes in Hd.
    rewrite Forall_forall in Hd. specialize (Hd _ Hb).
    unfold possible_byte in Hd. lia. }
  split; [exact Hd|].
  intros H. apply reported_only_if in H.
  destruct H as (_ & _ & bs' & t & Hst' & Hd' & _).
  rewrite Hst in Hst'. inversion Hst'; subst bs'. congruence.
Qed.

Lemma impossible_byte_never_reported_witness :
  decode [xff; xfe] = None /\ ~ reported sample_world ["bad.txt"].
Proof.
  exact (impossible_byte_never_reported sample_world ["bad.txt"]
           invalid_bytes xfe eq_refl ltac:(right; left; reflexivity)
           ltac:(right; right; vm_compute; discriminate)).
Defined.

(** X14: a file of ASCII bytes only decodes to those same characters and
    is never reported. *)
Theorem ascii_file_never_reported :
  forall (w : world) (p : Path) (bs : list byte),
    stat (root w) p = inr (Regular (Bytes bs)) ->
    Forall (fun b => (val b < 0x80)%N) bs ->
    decode bs = Some (map val bs) /\ ~ reported w p.
Proof.
  intros w p bs Hst Hascii.
  assert (Hd : decode bs = Some (map val bs))
    by (apply decode_Decodes; now apply Decodes_ascii).
  split; [exact Hd|].
  intros H. apply reported_only_if in H.
  destruct H as (_ & _ & bs' & t & Hst' & Hd' & Ht).
  rewrite Hst in Hst'. inversion Hst'; subst bs'.
  rewrite Hd in Hd'. inversion Hd'; subst t.
  apply in_map_iff in Ht. destruct Ht as [b [Hb Hin]].
  rewrite Forall_forall in Hascii. specialize (Hascii _ Hin).
  unfold REPLACEMENT in Hb. lia.
Qed.

Lemma ascii_file_never_reported_witness :
  decode hello_bytes = Some (map val hello_bytes)
  /\ ~ reported sample_world ["good.txt"].
Proof.
  apply (ascii_file_never_reported sample_world ["good.txt"] hello_bytes eq_refl).
  repeat (constructor; [vm_compute; reflexivity|]). constructor.
Defined.

(** X15: whatever decodes, decodes to Unicode scalar values: the text
    handed to the membership test holds no surrogate and nothing above
    U+10FFFF. *)
Theorem decoded_text_is_scalar_values :
  forall (bs : list byte) (t : text),
    decode bs = Some t -> Forall scalar_value t.
Proof.
  intros bs t H. apply decode_Decodes in H.
  exact (Decodes_scalar_values _ _ H).
Qed.

Lemma decoded_text_is_scalar_values_witness :
  Forall scalar_value [8364; 128512]%N.
Proof.
  exact (decoded_text_is_scalar_values
           [xe2; x82; xac; xf0; x9f; x98; x80] [8364; 128512]%N eq_refl).
Defined.

(** X16: decoding composes.  When two byte strings decode, so does their
    concatenation, to the concatenation of the texts, and the membership
    test on it succeeds exactly when it succeeds on one of the two. *)
Theorem decode_concatenation :
  forall (a b : list byte) (ta tb : text),
    decode a = Some ta ->
    decode b = Some tb ->
    decode (a ++ b) = Some (ta ++ tb)%list
    /\ contains REPLACEMENT (ta ++ tb)%list
       = contains REPLACEMENT ta || contains REPLACEMENT tb.
Proof.
  intros a b ta tb Ha Hb. split.
  - apply decode_Decodes. apply Decodes_app; now apply decode_Decodes.
  - unfold contains. apply existsb_app.
Qed.

Lemma decode_concatenation_witness :
  decode (hello_bytes ++ replacement_bytes)
  = Some ([104; 101; 108; 108; 111; 32; 119; 111; 114; 108; 100]%N
            ++ [REPLACEMENT])%list
  /\ contains REPLACEMENT
       ([104; 101; 108; 108; 111; 32; 119; 111; 114; 108; 100]%N
          ++ [REPLACEMENT])%list
     = contains REPLACEMENT
         [104; 101; 108; 108; 111; 32; 119; 111; 114; 108; 100]%N
       || contains REPLACEMENT [REPLACEMENT].
Proof.
  exact (decode_concatenation hello_bytes replacement_bytes _ _
           decode_hello_world decode_EF_BF_BD).
Defined.

(** X17: a printed path is written relative to the root with no leading
    [./]: the name alone for an entry of the root directory, else the
    rendering of the directory, the separator and the name; and the name
    has a suffix outside the skip-set. *)
Theorem printed_path_is_relative :
  forall (w : world) (p : Path),
    reported w p ->
    exists q nm,
      p = joinpath q nm
      /\ in_skip (suffix_of_name nm) = false
      /\ str p = match q with
                 | [] => nm
                 | _ => str q ++ String "/" nm
                 end.
Proof.
  intros w p H. pose proof (log_event_listed w _ H) as Hl.
  apply reported_only_if in H. destruct H as (_ & Hskip & _).
  cbn [event_path] in Hl. destruct Hl as (q & es & nm & n & _ & _ & ->).
  exists q, nm. rewrite suffix_joinpath in Hskip.
  split; [reflexivity|]. split; [exact Hskip|].
  destruct q as [|x q]; [reflexivity|].
  apply str_joinpath. discriminate.
Qed.

Lemma printed_path_is_relative_witness :
  exists q nm,
    ["sub"; "deep"; "er"; "z.txt"] = joinpath q nm
    /\ in_skip (suffix_of_name nm) = false
    /\ str ["sub"; "deep"; "er"; "z.txt"]
       = match q with
         | [] => nm
         | _ => str q ++ String "/" nm
         end.
Proof.
  exact (printed_path_is_relative sample_world ["sub"; "deep"; "er"; "z.txt"]
           ltac:(enumerated)).
Defined.

(** X19: an exception of [is_file] is not caught.  When the loop reaches
    an entry on which the metadata query fails with an error other than
    ENOENT, ENOTDIR, EBADF and ELOOP, the run ends with that [OSError],
    and the entry is neither read nor printed. *)
Theorem stat_error_is_not_caught :
  forall (w : world) (p : Path) (e : errno),
    visited w p ->
    stat (root w) p = inl e ->
    ignore_error e = false ->
    outcome w = inl (OSError e) /\ ~ decoded w p /\ ~ reported w p.
Proof.
  intros w p e Hv Hst Hig.
  assert (He : stat_error w p = Some e)
    by (unfold stat_error; now rewrite Hst, Hig).
  assert (Hreg : regular w p = false) by (unfold regular; now rewrite Hst).
  split; [|split].
  - unfold visited in Hv. rewrite log_eq in Hv.
    unfold outcome. rewrite main_run. cbn [fst].
    now rewrite (scan_stat_error _ _ _ _ _ Hv He).
  - intros H. apply read_logged in H. destruct H as (_ & H & _). congruence.
  - apply not_matching_not_reported. unfold matching. now rewrite Hreg.
Qed.

Lemma stat_error_is_not_caught_witness :
  outcome nosearch_world = inl (OSError EACCES)
  /\ ~ decoded nosearch_world ["nosearch"; "f.txt"]
  /\ ~ reported nosearch_world ["nosearch"; "f.txt"].
Proof.
  exact (stat_error_is_not_caught nosearch_world ["nosearch"; "f.txt"] EACCES
           ltac:(enumerated) eq_refl eq_refl).
Defined.

(** X20: an exception of [read_text] stays inside the [try].  Whatever
    [Exception] opening, reading or decoding a regular file raises, the
    iteration on that file ends normally, with the query and, unless the
    suffix is in the skip-set, the read as its only operations, and the
    file is never reported. *)
Theorem read_error_is_caught :
  forall (w : world) (p : Path) (c : contents) (tr0 : trace) (e : exn),
    stat (root w) p = inr (Regular c) ->
    fst (read_text w p tr0) = inl e ->
    isinstance_Exception e = true ->
    (forall tr,
        visit w p tr
        = (inr tt,
           (tr ++ EvStat p :: (if in_skip (suffix p) then [] else [EvRead p]))%list))
    /\ ~ reported w p.
Proof.
  intros w p c tr0 e Hst He _. split.
  - intros tr. exact (visit_read_error _ _ _ _ _ _ Hst He).
  - apply not_matching_not_reported. unfold matching.
    rewrite (read_error_not_flagged _ _ _ _ He). apply andb_false_r.
Qed.

Lemma read_error_is_caught_witness :
  (visit sample_world ["locked.txt"] []
   = (inr tt, [EvStat ["locked.txt"]; EvRead ["locked.txt"]])
   /\ ~ reported sample_world ["locked.txt"])
  /\ (visit sample_world ["sub"; "gone.txt"] []
      = (inr tt, [EvStat ["sub"; "gone.txt"]; EvRead ["sub"; "gone.txt"]])
      /\ ~ reported sample_world ["sub"; "gone.txt"]).
Proof.
  destruct (read_error_is_caught sample_world ["locked.txt"]
              (Unreadable EACCES) [] (OSError EACCES) eq_refl eq_refl eq_refl)
    as (V1 & R1).
  destruct (read_error_is_caught sample_world ["sub"; "gone.txt"]
              (Unreadable ENOENT) [] (OSError ENOENT) eq_refl eq_refl eq_refl)
    as (V2 & R2).
  split; (split; [|assumption]); [exact (V1 []) | exact (V2 [])].
Defined.

(** X21: an exception of [print] is not caught.  When the loop reaches
    an entry that passes the three tests and writing its line raises,
    the run ends with that exception and the path is not on standard
    output. *)
Theorem write_error_is_not_caught :
  forall (w : world) (p : Path) (e : exn),
    visited w p ->
    matching w p = true ->
    (forall h, console w h p = Some e) ->
    outcome w = inl e /\ ~ reported w p.
Proof.
  intros w p e Hv Hm Hc.
  unfold visited in Hv. rewrite log_eq in Hv.
  destruct (scan_print_error _ _ _ _ _ Hv Hm Hc) as [Hr Hn].
  split.
  - unfold outcome. rewrite main_run. cbn [fst]. now rewrite Hr.
  - unfold reported. now rewrite log_eq.
Qed.

Lemma write_error_is_not_caught_witness :
  outcome names_world = inl UnicodeEncodeError
  /\ ~ reported names_world [raw_name].
Proof.
  exact (write_error_is_not_caught names_world [raw_name] UnicodeEncodeError
           ltac:(enumerated) eq_refl ltac:(intros h; reflexivity)).
Defined.

(** X22: the loop reaches an entry exactly when the enumeration yields
    it and the iterations on the entries yielded before it all ended
    normally. *)
Theorem examined_exactly_when_reached :
  forall (w : world) (p : Path),
    visited w p <->
    exists ps1 ps2,
      enumerated w = (ps1 ++ p :: ps2)%list /\ fst (scan w ps1 []) = inr tt.
Proof.
  intros w p. unfold visited. rewrite log_eq, scan_events_reached.
  split; intros (ps1 & ps2 & E & H); exists ps1, ps2; (split; [exact E|]).
  - now rewrite scan_run.
  - now rewrite scan_run in H.
Qed.

(** X23: an exception of the walk of [rglob] ends the run after the
    entries yielded before it.  When the walk raises ([RecursionError] on
    a tree nested deeper than the interpreter allows, an [OSError] of
    [scandir] other than [PermissionError]) and no iteration raised
    before, every entry yielded until then has been examined, the
    matching ones have been printed, and the run ends with the exception
    of the walk. *)
Theorem walk_error_ends_the_run :
  forall (w : world) (e : exn),
    snd (rglob (recursion_limit w) (root w)) = Some e ->
    fst (scan w (enumerated w) []) = inr tt ->
    outcome w = inl e
    /\ examined (log w) = enumerated w
    /\ printed (log w) = filter (matching w) (enumerated w).
Proof.
  intros w e Hr Hs. rewrite scan_run in Hs. cbn [fst printed] in Hs.
  split; [|rewrite log_eq; exact (scan_normal _ _ _ Hs)].
  unfold outcome. rewrite main_run. cbn [fst]. now rewrite Hs, Hr.
Qed.

Lemma walk_error_ends_the_run_witness :
  outcome deep_last_world = inl RecursionError
  /\ examined (log deep_last_world) = enumerated deep_last_world
  /\ printed (log deep_last_world) = [["b"; "rep.txt"]].
Proof.
  destruct (walk_error_ends_the_run deep_last_world RecursionError
              ltac:(vm_compute; reflexivity) ltac:(vm_compute; reflexivity))
    as (H1 & H2 & H3).
  split; [exact H1|]. split; [exact H2|]. rewrite H3.
  vm_compute. reflexivity.
Defined.

End Extra.
